(** * The client-side dependency manager of django-components

    A shallow embedding of [src/django_components_js/src/manager.ts]:
    the closure returned by [createComponentsManager] becomes a record
    [Manager] holding its private variables, the browser becomes a record
    [Host] (promise cells, microtask jobs, the document, timers, console, the
    object heap), and every operation of the manager is a function on the
    pair of them.  Operations that can [throw] return a [Completion].

    How the host language is read:
    - the objects [components] and [componentInputs], used as maps, and the
      [Map]s and [Set]s are finite maps and sets over strings, under the very
      keys the code builds ([type:url], [class:hash], [class:id:hash]);
    - a promise is a cell that is pending, fulfilled or rejected; a [then] or
      [catch] continuation runs later, as an event of its own ([RunJob]);
      rejection reasons are [Error]s, as the type of the ledger says;
    - [_processPendingCalls] is [async] with one [await] in its loop: a call
      of it runs to that [await] or to its end, and goes on when the awaited
      activation is over ([ResumeDrain]); between the two, any other event
      may happen;
    - the callback chain of one activation is run in one go when the
      activation is taken from the queue, on the heap of that moment; what
      callbacks ask of the manager are events that follow;
    - decoding (base64, [JSON.parse]) is left to the caller. *)

From stdpp Require Import gmap strings pretty list sorting.


(** ** Values of the host language *)

Record Error := mkError { message : string }.

Inductive JsValue :=
| VUndefined
| VNull
| VBool (b : bool)
| VNum (n : Z)
| VStr (s : string)
| VRef (loc : nat).

(** The outcome of evaluating something that may throw or reject. *)
Inductive JsResult (A : Type) :=
| Returned (a : A)
| Failed (e : Error).
Arguments Returned {A} a.
Arguments Failed {A} e.

(** ** Promises

    A promise the manager can name is a cell of the host's promise store.
    [Promise.resolve()] is the constant [PResolved]: it needs no cell. *)

Inductive PromiseState :=
| Pending
| Fulfilled (v : JsValue)
| Rejected (e : Error).

Inductive Promise :=
| PResolved
| PRef (id : nat).

(** A cell remembers the call keys whose [then]/[catch] pair
    ([queueComponentCall]) is attached to it.  [pexternal] marks the cells
    that the host settles (a script's load event, a promise made by the
    page); the others are settled by the manager's own resolvers only. *)
Record PromiseCell := mkCell {
  pstate : PromiseState;
  reactions : list string;
  pexternal : bool;
}.

(** A microtask: the continuation attached by [queueComponentCall], with the
    status it will write to the ledger ([None] is the source's [null]). *)
Record Job := mkJob { job_key : string; job_status : option Error }.

(** ** The document *)

Inductive AttrVal :=
| AStr (s : string)
| ABool (b : bool).

Record TagJson := mkTag {
  tag : string;
  attrs : gmap string AttrVal;
  content : string;
}.

Record Element := mkElement {
  tagName : string;
  attributes : gmap string string;
  textContent : string;
  onload : option nat; (* the promise that the load handler resolves *)
}.

(** ** Components *)

Record ComponentContext := mkCtx {
  name : string;
  id : string;
  els : list Element;
}.

Inductive JsObject :=
| ODict (fields : gmap string JsValue)
| OCtx (ctx : ComponentContext).

Record Heap := mkHeap {
  cells : gmap nat JsObject;
  nextLoc : nat;
}.

Definition alloc (o : JsObject) (h : Heap) : Heap * nat :=
  (mkHeap (<[nextLoc h := o]> (cells h)) (S (nextLoc h)), nextLoc h).

(** [ComponentFn]: called with the data object and the context object (both
    by reference); what it does to the heap and what awaiting its result
    yields. *)
Definition ComponentFn : Type := nat → nat → Heap → Heap * JsResult JsValue.

(** [DataFn]: a nullary function returning an object. *)
Definition DataFn : Type := Heap → Heap * JsResult nat.

Record PendingCall := mkCall {
  compClsId : string;
  compId : string;
  jsVarsHash : option string;
  queuedAt : nat;
  waitForPromise : option Promise;
  resolve : option nat; (* resolver of the promise returned by callComponent *)
  reject : option nat;  (* rejecter of the same promise *)
}.

#[global] Instance Error_eq_dec : EqDecision Error.
Proof. solve_decision. Defined.
#[global] Instance Promise_eq_dec : EqDecision Promise.
Proof. solve_decision. Defined.
#[global] Instance PendingCall_eq_dec : EqDecision PendingCall.
Proof. solve_decision. Defined.

(** ** The manager's private state: the variables of the closure *)

Record Manager := mkManager {
  loadedJs : gset string;
  loadedCss : gset string;
  components : gmap string (list ComponentFn);
  componentInputs : gmap string DataFn;
  pendingScripts : gmap string nat; (* entry: its latch promise *)
  pendingComponentCalls : list PendingCall;
  isProcessingPendingCalls : bool;
  warningIntervalId : option nat;
  promiseCompletionStatus : gmap string (option Error);
}.

Inductive LogEntry :=
| LogError (msg : string) (e : Error)
| LogWarn (msg : string).

(** One call of a registered callback, as the host saw it: for which class,
    at which place of the chain, with which two objects, and on which heap. *)
Record Invocation := mkInvocation {
  inv_cls : string;
  inv_index : nat;
  inv_data : nat;
  inv_ctx : nat;
  inv_heap : Heap;
}.

(** ** The host

    [suspended] is the drain parked at its [await]: the activation it took
    from the queue and what awaiting [callUnblockedComponent] will yield.
    [enqueueLog], [execLog], [invocations] and [factoryCalls] record history
    and are never read by the manager. *)
Record Host := mkHost {
  promises : gmap nat PromiseCell;
  nextPromise : nat;
  jobs : list Job;
  docHead : list Element;
  docBody : list Element;
  intervals : gset nat;
  nextInterval : nat;
  console : list LogEntry;
  heap : Heap;
  unhandled : list Error; (* rejections of promises nobody handles *)
  suspended : option (PendingCall * JsResult JsValue);
  enqueueLog : list PendingCall;
  execLog : list PendingCall;
  invocations : list Invocation;
  factoryCalls : list string;
}.

Record World := mkWorld { mgr : Manager; env : Host }.

Inductive Completion (A : Type) :=
| Normal (w : World) (a : A)
| Thrown (w : World) (e : Error).
Arguments Normal {A} w a.
Arguments Thrown {A} w e.

Definition world_of {A} (c : Completion A) : World :=
  match c with Normal w _ => w | Thrown w _ => w end.

(** *** Field updates *)

Definition set_loadedJs (f : gset string → gset string) (m : Manager) : Manager :=
  mkManager (f (loadedJs m)) (loadedCss m) (components m) (componentInputs m)
    (pendingScripts m) (pendingComponentCalls m) (isProcessingPendingCalls m)
    (warningIntervalId m) (promiseCompletionStatus m).
Definition set_loadedCss (f : gset string → gset string) (m : Manager) : Manager :=
  mkManager (loadedJs m) (f (loadedCss m)) (components m) (componentInputs m)
    (pendingScripts m) (pendingComponentCalls m) (isProcessingPendingCalls m)
    (warningIntervalId m) (promiseCompletionStatus m).
Definition set_components (f : gmap string (list ComponentFn) → gmap string (list ComponentFn))
    (m : Manager) : Manager :=
  mkManager (loadedJs m) (loadedCss m) (f (components m)) (componentInputs m)
    (pendingScripts m) (pendingComponentCalls m) (isProcessingPendingCalls m)
    (warningIntervalId m) (promiseCompletionStatus m).
Definition set_componentInputs (f : gmap string DataFn → gmap string DataFn)
    (m : Manager) : Manager :=
  mkManager (loadedJs m) (loadedCss m) (components m) (f (componentInputs m))
    (pendingScripts m) (pendingComponentCalls m) (isProcessingPendingCalls m)
    (warningIntervalId m) (promiseCompletionStatus m).
Definition set_pendingScripts (f : gmap string nat → gmap string nat) (m : Manager) : Manager :=
  mkManager (loadedJs m) (loadedCss m) (components m) (componentInputs m)
    (f (pendingScripts m)) (pendingComponentCalls m) (isProcessingPendingCalls m)
    (warningIntervalId m) (promiseCompletionStatus m).
Definition set_pendingComponentCalls (f : list PendingCall → list PendingCall)
    (m : Manager) : Manager :=
  mkManager (loadedJs m) (loadedCss m) (components m) (componentInputs m)
    (pendingScripts m) (f (pendingComponentCalls m)) (isProcessingPendingCalls m)
    (warningIntervalId m) (promiseCompletionStatus m).
Definition set_isProcessingPendingCalls (b : bool) (m : Manager) : Manager :=
  mkManager (loadedJs m) (loadedCss m) (components m) (componentInputs m)
    (pendingScripts m) (pendingComponentCalls m) b
    (warningIntervalId m) (promiseCompletionStatus m).
Definition set_warningIntervalId (t : option nat) (m : Manager) : Manager :=
  mkManager (loadedJs m) (loadedCss m) (components m) (componentInputs m)
    (pendingScripts m) (pendingComponentCalls m) (isProcessingPendingCalls m)
    t (promiseCompletionStatus m).
Definition set_promiseCompletionStatus
    (f : gmap string (option Error) → gmap string (option Error)) (m : Manager) : Manager :=
  mkManager (loadedJs m) (loadedCss m) (components m) (componentInputs m)
    (pendingScripts m) (pendingComponentCalls m) (isProcessingPendingCalls m)
    (warningIntervalId m) (f (promiseCompletionStatus m)).

Definition set_promises (f : gmap nat PromiseCell → gmap nat PromiseCell) (h : Host) : Host :=
  mkHost (f (promises h)) (nextPromise h) (jobs h) (docHead h) (docBody h) (intervals h)
    (nextInterval h) (console h) (heap h) (unhandled h) (suspended h) (enqueueLog h)
    (execLog h) (invocations h) (factoryCalls h).
Definition set_nextPromise (n : nat) (h : Host) : Host :=
  mkHost (promises h) n (jobs h) (docHead h) (docBody h) (intervals h)
    (nextInterval h) (console h) (heap h) (unhandled h) (suspended h) (enqueueLog h)
    (execLog h) (invocations h) (factoryCalls h).
Definition set_jobs (f : list Job → list Job) (h : Host) : Host :=
  mkHost (promises h) (nextPromise h) (f (jobs h)) (docHead h) (docBody h) (intervals h)
    (nextInterval h) (console h) (heap h) (unhandled h) (suspended h) (enqueueLog h)
    (execLog h) (invocations h) (factoryCalls h).
Definition set_docHead (f : list Element → list Element) (h : Host) : Host :=
  mkHost (promises h) (nextPromise h) (jobs h) (f (docHead h)) (docBody h) (intervals h)
    (nextInterval h) (console h) (heap h) (unhandled h) (suspended h) (enqueueLog h)
    (execLog h) (invocations h) (factoryCalls h).
Definition set_docBody (f : list Element → list Element) (h : Host) : Host :=
  mkHost (promises h) (nextPromise h) (jobs h) (docHead h) (f (docBody h)) (intervals h)
    (nextInterval h) (console h) (heap h) (unhandled h) (suspended h) (enqueueLog h)
    (execLog h) (invocations h) (factoryCalls h).
Definition set_intervals (f : gset nat → gset nat) (n : nat) (h : Host) : Host :=
  mkHost (promises h) (nextPromise h) (jobs h) (docHead h) (docBody h) (f (intervals h))
    n (console h) (heap h) (unhandled h) (suspended h) (enqueueLog h)
    (execLog h) (invocations h) (factoryCalls h).
Definition set_console (f : list LogEntry → list LogEntry) (h : Host) : Host :=
  mkHost (promises h) (nextPromise h) (jobs h) (docHead h) (docBody h) (intervals h)
    (nextInterval h) (f (console h)) (heap h) (unhandled h) (suspended h) (enqueueLog h)
    (execLog h) (invocations h) (factoryCalls h).
Definition set_heap (hp : Heap) (h : Host) : Host :=
  mkHost (promises h) (nextPromise h) (jobs h) (docHead h) (docBody h) (intervals h)
    (nextInterval h) (console h) hp (unhandled h) (suspended h) (enqueueLog h)
    (execLog h) (invocations h) (factoryCalls h).
Definition set_unhandled (f : list Error → list Error) (h : Host) : Host :=
  mkHost (promises h) (nextPromise h) (jobs h) (docHead h) (docBody h) (intervals h)
    (nextInterval h) (console h) (heap h) (f (unhandled h)) (suspended h) (enqueueLog h)
    (execLog h) (invocations h) (factoryCalls h).
Definition set_suspended (x : option (PendingCall * JsResult JsValue)) (h : Host) : Host :=
  mkHost (promises h) (nextPromise h) (jobs h) (docHead h) (docBody h) (intervals h)
    (nextInterval h) (console h) (heap h) (unhandled h) x (enqueueLog h)
    (execLog h) (invocations h) (factoryCalls h).
Definition set_enqueueLog (f : list PendingCall → list PendingCall) (h : Host) : Host :=
  mkHost (promises h) (nextPromise h) (jobs h) (docHead h) (docBody h) (intervals h)
    (nextInterval h) (console h) (heap h) (unhandled h) (suspended h) (f (enqueueLog h))
    (execLog h) (invocations h) (factoryCalls h).
Definition set_execLog (f : list PendingCall → list PendingCall) (h : Host) : Host :=
  mkHost (promises h) (nextPromise h) (jobs h) (docHead h) (docBody h) (intervals h)
    (nextInterval h) (console h) (heap h) (unhandled h) (suspended h) (enqueueLog h)
    (f (execLog h)) (invocations h) (factoryCalls h).
Definition set_invocations (f : list Invocation → list Invocation) (h : Host) : Host :=
  mkHost (promises h) (nextPromise h) (jobs h) (docHead h) (docBody h) (intervals h)
    (nextInterval h) (console h) (heap h) (unhandled h) (suspended h) (enqueueLog h)
    (execLog h) (f (invocations h)) (factoryCalls h).
Definition set_factoryCalls (f : list string → list string) (h : Host) : Host :=
  mkHost (promises h) (nextPromise h) (jobs h) (docHead h) (docBody h) (intervals h)
    (nextInterval h) (console h) (heap h) (unhandled h) (suspended h) (enqueueLog h)
    (execLog h) (invocations h) (f (factoryCalls h)).

Definition on_mgr (f : Manager → Manager) (w : World) : World := mkWorld (f (mgr w)) (env w).
Definition on_env (f : Host → Host) (w : World) : World := mkWorld (mgr w) (f (env w)).

(** ** Promise primitives of the host *)

(** [new Promise(...)]: a fresh pending cell. *)
Definition newPromise (external : bool) (h : Host) : Host * nat :=
  (set_nextPromise (S (nextPromise h))
     (set_promises (insert (nextPromise h) (mkCell Pending [] external)) h),
   nextPromise h).

Definition status_of (st : PromiseState) : option Error :=
  match st with Rejected e => Some e | _ => None end.

(** Settling a cell: only a pending cell changes, and its attached
    continuations become microtasks. *)
Definition settle (p : nat) (st : PromiseState) (h : Host) : Host :=
  match promises h !! p with
  | Some (mkCell Pending rs ext) =>
      set_jobs (λ js, js ++ ((λ k, mkJob k (status_of st)) <$> rs))
        (set_promises (insert p (mkCell st [] ext)) h)
  | _ => h
  end.

Definition promiseState (p : Promise) (h : Host) : option PromiseState :=
  match p with
  | PResolved => Some (Fulfilled VUndefined)
  | PRef i => pstate <$> promises h !! i
  end.

(** ** Sequencing operations that may throw *)

Definition Op (A : Type) : Type := World → Completion A.

Definition ret {A} (a : A) : Op A := λ w, Normal w a.
Definition throw {A} (e : Error) : Op A := λ w, Thrown w e.
Definition bind {A B} (c : Op A) (k : A → Op B) : Op B :=
  λ w, match c w with
       | Normal w' a => k a w'
       | Thrown w' e => Thrown w' e
       end.
Definition modify (f : World → World) : Op unit := λ w, Normal (f w) tt.
Definition gets {A} (f : World → A) : Op A := λ w, Normal w (f w).

Notation "'let*' x ':=' c 'in' k" := (bind c (λ x, k))
  (at level 10, x pattern, c at level 100, k at level 200).
Notation "c ';;' k" := (bind c (λ _, k))
  (at level 100, k at level 200, right associativity).

(** ** Asset registry and loader *)

(** How [createScriptElement] and [createLinkElement] turn one entry of
    [data.attrs] into an attribute: [true] gives the empty string, [false]
    gives no attribute, a string is kept. *)
Definition renderAttr (v : AttrVal) : option string :=
  match v with
  | ABool true => Some ""
  | ABool false => None
  | AStr s => Some s
  end.

(** The two errors of the registry: a tag descriptor of the wrong kind, and
    a script type outside ["js"], ["css"]. *)
Definition badTag (fn expected received : string) : Error :=
  mkError ("[DjangoComponents] " +:+ fn +:+ " received tag '" +:+ received
           +:+ "' but expected '" +:+ expected +:+ "'").

Definition badKind (fn type : string) : Error :=
  mkError ("[DjangoComponents] " +:+ fn +:+ " received invalid script type '"
           +:+ type +:+ "'. Must be one of 'js', 'css'").

Definition createLinkElement (data : TagJson) : JsResult Element :=
  if decide (tag data ≠ "link") then Failed (badTag "loadCss" "link" (tag data))
  else Returned (mkElement "link" (omap renderAttr (attrs data)) "" None).

Definition createScriptElement (data : TagJson) : JsResult Element :=
  if decide (tag data ≠ "script") then Failed (badTag "loadJs" "script" (tag data))
  else Returned (mkElement "script" (omap renderAttr (attrs data)) (content data) None).

Definition lift {A} (r : JsResult A) : Op A :=
  match r with Returned a => ret a | Failed e => throw e end.

(** [!v || typeof v !== "string"] fails exactly for a non-empty string. *)
Definition urlString (v : option AttrVal) : option string :=
  match v with
  | Some (AStr s) => if decide (s = "") then None else Some s
  | _ => None
  end.

Definition isScriptLoaded (type url : string) : Op bool :=
  if decide (type ≠ "js" ∧ type ≠ "css") then
    throw (badKind "isScriptLoaded" type)
  else
    gets (λ w, let urlsSet := if decide (type = "js") then loadedJs (mgr w)
                              else loadedCss (mgr w) in
               bool_decide (url ∈ urlsSet)).

Definition markScriptLoaded (type url : string) : Op unit :=
  if decide (type ≠ "js" ∧ type ≠ "css") then
    throw (badKind "markScriptLoaded" type)
  else
    modify (on_mgr (if decide (type = "js") then set_loadedJs (union {[url]})
                    else set_loadedCss (union {[url]})));;
    let* entry := gets (λ w, pendingScripts (mgr w) !! (type +:+ ":" +:+ url)) in
    match entry with
    | Some latch => modify (on_env (settle latch (Fulfilled VUndefined)))
    | None => ret tt
    end.

Definition withOnload (p : nat) (e : Element) : Element :=
  mkElement (tagName e) (attributes e) (textContent e) (Some p).

Definition loadJs (data : TagJson) : Op (Element * Promise) :=
  let* scriptNode := lift (createScriptElement data) in
  match urlString (attrs data !! "src") with
  | None => ret (scriptNode, PResolved)
  | Some src =>
      let* loaded := isScriptLoaded "js" src in
      if loaded then ret (scriptNode, PResolved)
      else
        markScriptLoaded "js" src;;
        λ w, let '(h, p) := newPromise true (env w) in
             let node := withOnload p scriptNode in
             Normal (mkWorld (mgr w) (set_docBody (λ b, b ++ [node]) h)) (node, PRef p)
  end.

Definition loadCss (data : TagJson) : Op (option (Element * Promise)) :=
  let* linkNode := lift (createLinkElement data) in
  match urlString (attrs data !! "href") with
  | None => ret None
  | Some href =>
      let* loaded := isScriptLoaded "css" href in
      if loaded then ret None
      else
        modify (on_env (set_docHead (λ hd, hd ++ [linkNode])));;
        markScriptLoaded "css" href;;
        ret (Some (linkNode, PResolved))
  end.

(** The callback that [waitForScriptsToLoad] maps over [urls]. *)
Definition waitForOne (type url : string) : Op Promise :=
  let* loaded := isScriptLoaded type url in
  if loaded then ret PResolved
  else
    let* found := gets (λ w, pendingScripts (mgr w) !! url) in
    match found with
    | Some latch => ret (PRef latch)
    | None =>
        λ w, let '(h, p) := newPromise false (env w) in
             Normal (mkWorld (set_pendingScripts (insert (type +:+ ":" +:+ url) p) (mgr w)) h)
                    (PRef p)
    end.

(** [waitForScriptsToLoad] up to its [await]: the promises it hands to
    [Promise.all].  The function is [async], so [Thrown] here stands for a
    rejected result, not for an exception at the caller. *)
Fixpoint waitForScriptsToLoad (type : string) (urls : list string) : Op (list Promise) :=
  match urls with
  | [] => ret []
  | url :: rest =>
      let* p := waitForOne type url in
      let* ps := waitForScriptsToLoad type rest in
      ret (p :: ps)
  end.

Definition isFulfilled (h : Host) (p : Promise) : bool :=
  match promiseState p h with
  | Some (Fulfilled _) => true
  | _ => false
  end.

(** [Promise.all] of fulfilled-or-pending promises is fulfilled once all are. *)
Definition allFulfilled (ps : list Promise) (h : Host) : bool :=
  forallb (isFulfilled h) ps.

(** ** Callback and data registries, readiness *)

Definition _getCallKey (compClsId compId : string) (jsVarsHash : option string) : string :=
  compClsId +:+ ":" +:+ compId +:+ ":" +:+ default "null" jsVarsHash.

Definition callKeyOf (call : PendingCall) : string :=
  _getCallKey (compClsId call) (compId call) (jsVarsHash call).

Definition dataKey (compClsId jsVarsHash : string) : string :=
  compClsId +:+ ":" +:+ jsVarsHash.

Definition _isCallBlocked (call : PendingCall) (m : Manager) : bool :=
  match components m !! compClsId call with
  | None | Some [] => true
  | Some (_ :: _) =>
      let noData :=
        match jsVarsHash call with
        | Some hash =>
            match componentInputs m !! dataKey (compClsId call) hash with
            | None => true
            | Some _ => false
            end
        | None => false
        end in
      if noData then true
      else
        match waitForPromise call with
        | Some _ =>
            match promiseCompletionStatus m !! callKeyOf call with
            | None => true            (* not settled yet *)
            | Some (Some _) => true   (* failed; handled by the drain *)
            | Some None => false      (* succeeded *)
            end
        | None => false
        end
  end.

(** ** Stall reporter *)

Definition _startWarningInterval (w : World) : World :=
  match warningIntervalId (mgr w) with
  | Some _ => w
  | None =>
      let t := nextInterval (env w) in
      mkWorld (set_warningIntervalId (Some t) (mgr w))
              (set_intervals (union {[t]}) (S t) (env w))
  end.

Definition clearInterval (t : nat) (h : Host) : Host :=
  set_intervals (λ s, s ∖ {[t]}) (nextInterval h) h.

(** The body of the interval callback, run at time [now]. *)
Definition warningTick (now : nat) (w : World) : World :=
  let blockedCalls :=
    List.filter (λ call, _isCallBlocked call (mgr w)) (pendingComponentCalls (mgr w)) in
  match blockedCalls with
  | oldestBlocked :: _ =>
      let waitTime := (now - queuedAt oldestBlocked) / 1000 in
      on_env (set_console (λ c, c ++
        [LogWarn ("[DjangoComponents] " +:+ pretty (length blockedCalls)
                  +:+ " component call(s) are still waiting for dependencies. "
                  +:+ "Oldest call has been waiting for " +:+ pretty waitTime +:+ "s: '"
                  +:+ compClsId oldestBlocked +:+ "' (ID: " +:+ compId oldestBlocked +:+ ")")])) w
  | [] => w
  end.

(** ** Executing one activation *)

(** [document.querySelectorAll("[data-djc-id-<compId>]")] *)
Definition querySelectorAll_djcId (compId : string) (h : Host) : list Element :=
  List.filter (λ e, bool_decide (is_Some (attributes e !! ("data-djc-id-" +:+ compId))))
              (docHead h ++ docBody h).

(** Modelled from the spec: [errorHandling.ts] is not among the sources.  The
    wrapper takes [(fn, args)], calls [fn] on [args] and hands back the promise
    of its result; awaiting that promise yields what the callback yields. *)
Definition callWithAsyncErrorHandling (cls : string) (index : nat) (fn : ComponentFn)
    (data ctx : nat) : Op JsValue :=
  λ w, let '(hp, r) := fn data ctx (heap (env w)) in
       let w' := on_env (λ h, set_invocations
                                 (λ l, l ++ [mkInvocation cls index data ctx (heap (env w))])
                                 (set_heap hp h)) w in
       match r with
       | Returned v => Normal w' v
       | Failed e => Thrown w' e
       end.

(** The [for (const initFn of initFns)] loop. *)
Fixpoint callInSequence (cls : string) (data ctx : nat) (initFns : list ComponentFn)
    (index : nat) (lastResult : JsValue) : Op JsValue :=
  match initFns with
  | [] => ret lastResult
  | initFn :: rest =>
      let* result := callWithAsyncErrorHandling cls index initFn data ctx in
      callInSequence cls data ctx rest (S index) result
  end.

Definition allocObject (o : JsObject) : Op nat :=
  λ w, let '(hp, l) := alloc o (heap (env w)) in Normal (on_env (set_heap hp) w) l.

Definition callFactory (key : string) (dataFactory : DataFn) : Op nat :=
  λ w, let '(hp, r) := dataFactory (heap (env w)) in
       let w' := on_env (λ h, set_factoryCalls (λ l, l ++ [key]) (set_heap hp h)) w in
       match r with
       | Returned l => Normal w' l
       | Failed e => Thrown w' e
       end.

(** [callUnblockedComponent] is [async]: [Thrown] is a rejected result.
    A chain is run to its end in one go; whatever its callbacks ask of the
    manager meanwhile are the events the drain sees while it is suspended. *)
Definition callUnblockedComponent (compClsId compId : string) (jsVarsHash : option string)
    : Op JsValue :=
  let* initFns := gets (λ w, components (mgr w) !! compClsId) in
  match initFns with
  | None | Some [] =>
      throw (mkError ("[DjangoComponents] '" +:+ compClsId
                      +:+ "': No component registered for that name"))
  | Some initFns =>
      let* elems := gets (λ w, querySelectorAll_djcId compId (env w)) in
      match elems with
      | [] =>
          throw (mkError ("[DjangoComponents] '" +:+ compClsId
                          +:+ "': No elements with component ID '" +:+ compId +:+ "' found"))
      | _ :: _ =>
          let* empty := allocObject (ODict ∅) in
          let* data :=
            match jsVarsHash with
            | Some hash =>
                let* dataFactory :=
                  gets (λ w, componentInputs (mgr w) !! dataKey compClsId hash) in
                match dataFactory with
                | None =>
                    throw (mkError ("[DjangoComponents] '" +:+ compClsId
                                    +:+ "': Cannot find JS variables for hash '"
                                    +:+ hash +:+ "'"))
                | Some dataFactory => callFactory (dataKey compClsId hash) dataFactory
                end
            | None => ret empty
            end in
          let* ctx := allocObject (OCtx (mkCtx compClsId compId elems)) in
          callInSequence compClsId data ctx initFns 0 VUndefined
      end
  end.

(** ** The drain *)

(** How a call of [_processPendingCalls] leaves its synchronous stretch. *)
Inductive DrainResult :=
| DrainSkipped                      (* the guard was set: returned at once *)
| DrainFinished                     (* left the loop: the promise resolves *)
| DrainThrew (e : Error)            (* flushed the queue: the promise rejects *)
| DrainAwaiting (call : PendingCall). (* parked at [await callUnblockedComponent] *)

(** The error recorded for the head's wait-promise, if it failed. *)
Definition failedStatus (call : PendingCall) (m : Manager) : option Error :=
  match waitForPromise call with
  | Some _ =>
      match promiseCompletionStatus m !! callKeyOf call with
      | Some (Some status) => Some status
      | _ => None
      end
  | None => None
  end.

(** The lines after the loop. *)
Definition leaveDrain (w : World) : World :=
  let w1 :=
    match pendingComponentCalls (mgr w), warningIntervalId (mgr w) with
    | [], Some t => mkWorld (set_warningIntervalId None (mgr w)) (clearInterval t (env w))
    | _, _ => w
    end in
  on_mgr (set_isProcessingPendingCalls false) w1.

(** The branch that throws. *)
Definition flushQueue (w : World) : World :=
  on_mgr (λ m, set_isProcessingPendingCalls false
                 (set_promiseCompletionStatus (λ _, ∅)
                    (set_pendingComponentCalls (λ _, []) m))) w.

Definition scriptLoadFailed (call : PendingCall) (status : Error) : Error :=
  mkError ("[DjangoComponents] Script loading failed for component call '"
           +:+ compClsId call +:+ "' (ID: " +:+ compId call +:+ "): " +:+ message status).

(** Taking the head [call] off the queue: the [shift], the ledger entry of
    an activation that waited, and the note that [call] enters execution. *)
Definition takeHead (call : PendingCall) (rest : list PendingCall) (w : World) : World :=
  let w1 := on_mgr (set_pendingComponentCalls (λ _, rest)) w in
  let w2 :=
    match waitForPromise call with
    | Some _ => on_mgr (set_promiseCompletionStatus (delete (callKeyOf call))) w1
    | None => w1
    end in
  on_env (set_execLog (λ l, l ++ [call])) w2.

(** [await callUnblockedComponent(...)] inside the [try]: the world it leaves
    and what the [await] yields. *)
Definition execute (call : PendingCall) (w : World) : World * JsResult JsValue :=
  match callUnblockedComponent (compClsId call) (compId call) (jsVarsHash call) w with
  | Normal w' result => (w', Returned result)
  | Thrown w' error => (w', Failed error)
  end.

(** The [while] loop from its test up to where the drain next leaves the
    thread: every iteration that executes an activation awaits it, so a
    synchronous stretch covers at most one iteration. *)
Definition drainLoop (w : World) : World * DrainResult :=
  match pendingComponentCalls (mgr w) with
  | [] => (leaveDrain w, DrainFinished)
  | call :: rest =>
      match failedStatus call (mgr w) with
      | Some status => (flushQueue w, DrainThrew (scriptLoadFailed call status))
      | None =>
          if _isCallBlocked call (mgr w) then (leaveDrain w, DrainFinished)
          else
            let x := execute call (takeHead call rest w) in
            (on_env (set_suspended (Some (call, x.2))) x.1, DrainAwaiting call)
      end
  end.

Definition _processPendingCalls (w : World) : World * DrainResult :=
  if isProcessingPendingCalls (mgr w) then (w, DrainSkipped)
  else drainLoop (on_mgr (set_isProcessingPendingCalls true) w).

(** The drain wakes up with the outcome of the activation it awaited: the
    rest of the [try]/[catch], then the loop again. *)
Definition settleCall (call : PendingCall) (r : JsResult JsValue) (w : World) : World :=
  match r with
  | Returned result =>
      match resolve call with
      | Some p => on_env (settle p (Fulfilled result)) w
      | None => w
      end
  | Failed error =>
      match reject call with
      | Some p => on_env (settle p (Rejected error)) w
      | None =>
          on_env (set_console (λ c, c ++
            [LogError ("[DjangoComponents] Error executing component call for '"
                       +:+ compClsId call +:+ "' (ID: " +:+ compId call +:+ "):") error])) w
      end
  end.

Definition resumeDrain (w : World) : World * DrainResult :=
  match suspended (env w) with
  | None => (w, DrainSkipped)
  | Some (call, r) =>
      drainLoop (settleCall call r (on_env (set_suspended None) w))
  end.

(** A caller that drops the promise of a drain: a rejection goes unhandled. *)
Definition surface (x : World * DrainResult) : World :=
  match x with
  | (w, DrainThrew e) => on_env (set_unhandled (λ l, l ++ [e])) w
  | (w, _) => w
  end.

Definition requestDrain : Op unit := modify (λ w, surface (_processPendingCalls w)).

(** ** Public operations on the queue *)

Definition registerComponent (compClsId : string) (compFn : ComponentFn) : Op unit :=
  modify (on_mgr (set_components (λ cs,
    let cs' := match cs !! compClsId with
               | None => <[compClsId := []]> cs
               | Some _ => cs
               end in
    alter (λ fns, fns ++ [compFn]) compClsId cs')));;
  requestDrain.

Definition registerComponentData (compClsId jsVarsHash : string) (dataFactory : DataFn)
    : Op unit :=
  modify (on_mgr (set_componentInputs (insert (dataKey compClsId jsVarsHash) dataFactory)));;
  requestDrain.

(** [waitForPromise.then(...).catch(...)]: the continuation waits in the cell
    while the promise is pending and is a microtask at once when it is settled. *)
Definition attachLedger (callKey : string) (p : Promise) (h : Host) : Host :=
  match p with
  | PResolved => set_jobs (λ js, js ++ [mkJob callKey None]) h
  | PRef i =>
      match promises h !! i with
      | Some (mkCell Pending rs ext) =>
          set_promises (insert i (mkCell Pending (rs ++ [callKey]) ext)) h
      | Some (mkCell st _ _) => set_jobs (λ js, js ++ [mkJob callKey (status_of st)]) h
      | None => h
      end
  end.

(** The continuation itself: write the ledger, then ask for a drain. *)
Definition runLedgerJob (j : Job) : Op unit :=
  modify (on_mgr (set_promiseCompletionStatus (insert (job_key j) (job_status j))));;
  requestDrain.

Definition queueComponentCall (compClsId compId : string) (jsVarsHash : option string)
    (waitForPromise : option Promise) (now : nat) : Op Promise :=
  let callKey := _getCallKey compClsId compId jsVarsHash in
  match waitForPromise with
  | Some p => modify (on_env (attachLedger callKey p))
  | None => ret tt
  end;;
  let* callPromise := (λ w, let '(h, p) := newPromise false (env w) in
                            Normal (mkWorld (mgr w) h) p) in
  let call := mkCall compClsId compId jsVarsHash now waitForPromise
                     (Some callPromise) (Some callPromise) in
  modify (λ w, mkWorld (set_pendingComponentCalls (λ q, q ++ [call]) (mgr w))
                       (set_enqueueLog (λ l, l ++ [call]) (env w)));;
  let* queued := gets (λ w, pendingComponentCalls (mgr w)) in
  match queued with
  | _ :: _ => modify _startWarningInterval
  | [] => ret tt
  end;;
  ret (PRef callPromise).

(** ** Envelopes *)

(** The payload of an envelope after the base64 and JSON decoding at the top
    of [_loadComponentScripts].  The third component of a [componentJsVars]
    entry is what [JSON.parse(jsonData)] evaluates to. *)
Record Envelope := mkEnvelope {
  cssUrls__markAsLoaded : list string;
  jsUrls__markAsLoaded : list string;
  cssTags__toFetch : list TagJson;
  jsTags__toFetch : list TagJson;
  componentJsVars : list (string * string * JsResult (gmap string JsValue));
  componentJsCalls : list (string * string * option string);
}.

Fixpoint forEach {A} (f : A → Op unit) (l : list A) : Op unit :=
  match l with
  | [] => ret tt
  | x :: rest => f x;; forEach f rest
  end.

Fixpoint mapOp {A B} (f : A → Op B) (l : list A) : Op (list B) :=
  match l with
  | [] => ret []
  | x :: rest => let* y := f x in let* ys := mapOp f rest in ret (y :: ys)
  end.

(** Calling an [async] function: its exception is a rejected promise. *)
Definition async {A} (c : Op A) : Op (JsResult A) :=
  λ w, match c w with
       | Normal w' a => Normal w' (Returned a)
       | Thrown w' e => Normal w' (Failed e)
       end.

(** [() => JSON.parse(jsonData)]: a fresh object at every call. *)
Definition jsonFactory (parsed : JsResult (gmap string JsValue)) : DataFn :=
  λ hp, match parsed with
        | Returned fields => let '(hp', l) := alloc (ODict fields) hp in (hp', Returned l)
        | Failed e => (hp, Failed e)
        end.

(** [Promise.all] over promises that cannot reject: a promise that is as good
    as resolved when every member already is, and otherwise a cell that the
    host fulfils once the members are. *)
Definition promiseAll (ps : list Promise) : Op Promise :=
  λ w, if allFulfilled ps (env w) then Normal w PResolved
       else let '(h, p) := newPromise true (env w) in Normal (mkWorld (mgr w) h) (PRef p).

Definition _loadComponentScripts (inputs : Envelope) (now : nat) : Op unit :=
  forEach (λ '(compClsId, jsVarsHash, jsonData),
             registerComponentData compClsId jsVarsHash (jsonFactory jsonData))
          (componentJsVars inputs);;
  forEach (markScriptLoaded "css") (cssUrls__markAsLoaded inputs);;
  forEach (markScriptLoaded "js") (jsUrls__markAsLoaded inputs);;
  mapOp loadCss (cssTags__toFetch inputs);;
  let* jsScripts := mapOp (λ s, let* r := loadJs s in ret (snd r)) (jsTags__toFetch inputs) in
  let* jsScripts2 := async (waitForScriptsToLoad "js" (jsUrls__markAsLoaded inputs)) in
  let* scriptsLoadPromise :=
    promiseAll (jsScripts ++ match jsScripts2 with Returned ps => ps | Failed _ => [] end) in
  forEach (λ '(compClsId, compId, jsVarsHash),
             queueComponentCall compClsId compId jsVarsHash (Some scriptsLoadPromise) now;;
             ret tt)
          (componentJsCalls inputs);;
  requestDrain.

(** ** Runs of the manager *)

Definition emptyManager : Manager :=
  mkManager ∅ ∅ ∅ ∅ ∅ [] false None ∅.

(** The world right after [createComponentsManager] has made its variables,
    in a page with the given [<head>] and [<body>]. *)
Definition createComponentsManager (head body : list Element) : World :=
  mkWorld emptyManager
    (mkHost ∅ 0 [] head body ∅ 0 [] (mkHeap ∅ 0) [] None [] [] [] []).

(** What can happen next: a call of the public interface, the arrival of an
    envelope, or the host running something that was waiting. *)
Inductive Event :=
| RegisterComponent (compClsId : string) (compFn : ComponentFn)
| RegisterComponentData (compClsId jsVarsHash : string) (dataFactory : DataFn)
| CallComponent (compClsId compId : string) (jsVarsHash : option string)
                (waitForPromise : option Promise) (now : nat)
| LoadJs (data : TagJson)
| LoadCss (data : TagJson)
| MarkScriptLoaded (type url : string)
| WaitForScriptsToLoad (type : string) (urls : list string)
| LoadComponentScripts (inputs : Envelope) (now : nat)
| PageNewPromise                          (* the page makes a promise *)
| PageSettles (p : nat) (st : PromiseState) (* a load event, or the page settles its promise *)
| PageAppends (e : Element)               (* the page adds an element to <body> *)
| RunJob (i : nat)                        (* a waiting continuation runs *)
| ResumeDrain                             (* the awaited activation is over *)
| TimerTick (t now : nat).                (* the interval [t] fires at time [now] *)

Definition run_op {A} (c : Op A) (w : World) : World := world_of (c w).

Definition step (w : World) (ev : Event) : World :=
  match ev with
  | RegisterComponent cls fn => run_op (registerComponent cls fn) w
  | RegisterComponentData cls hash f => run_op (registerComponentData cls hash f) w
  | CallComponent cls cid hash wait now => run_op (queueComponentCall cls cid hash wait now) w
  | LoadJs data => run_op (loadJs data) w
  | LoadCss data => run_op (loadCss data) w
  | MarkScriptLoaded type url => run_op (markScriptLoaded type url) w
  | WaitForScriptsToLoad type urls => run_op (waitForScriptsToLoad type urls) w
  | LoadComponentScripts inputs now => run_op (_loadComponentScripts inputs now) w
  | PageNewPromise => on_env (λ h, fst (newPromise true h)) w
  | PageSettles p st =>
      match st, promises (env w) !! p with
      | Pending, _ => w
      | _, Some (mkCell Pending _ true) => on_env (settle p st) w
      | _, _ => w
      end
  | PageAppends e => on_env (set_docBody (λ b, b ++ [e])) w
  | RunJob i =>
      match jobs (env w) !! i with
      | Some j => run_op (runLedgerJob j) (on_env (set_jobs (delete i)) w)
      | None => w
      end
  | ResumeDrain => surface (resumeDrain w)
  | TimerTick t now => if decide (t ∈ intervals (env w)) then warningTick now w else w
  end.

Definition run (w : World) (evs : list Event) : World := foldl step w evs.

(** A world the manager can be in: reached from a fresh manager in some page. *)
Definition reachable (w : World) : Prop :=
  ∃ head body evs, w = run (createComponentsManager head body) evs.

(** * Properties *)

(** ** Reading the monad *)

(** A relation between the world before and the world after that holds
    across each part of a sequence holds across the sequence. *)
Lemma bind_rel (R : relation World) `{!PreOrder R} {A B} (c : Op A) (k : A → Op B) :
  (∀ w, R w (world_of (c w))) → (∀ a w, R w (world_of (k a w))) →
  ∀ w, R w (world_of (bind c k w)).
Proof.
  intros Hc Hk w. unfold bind. specialize (Hc w).
  destruct (c w) as [w' a|w' e]; [|done]. etrans; [exact Hc|apply Hk].
Qed.

Lemma forEach_rel (R : relation World) `{!PreOrder R} {A} (f : A → Op unit) (l : list A) :
  (∀ x w, R w (world_of (f x w))) → ∀ w, R w (world_of (forEach f l w)).
Proof.
  intros Hf. induction l as [|x rest IH]; intros w; [done|]. simpl.
  by apply (bind_rel R).
Qed.

Lemma mapOp_rel (R : relation World) `{!PreOrder R} {A B} (f : A → Op B) (l : list A) :
  (∀ x w, R w (world_of (f x w))) → ∀ w, R w (world_of (mapOp f l w)).
Proof.
  intros Hf. induction l as [|x rest IH]; intros w; [done|]. simpl.
  apply (bind_rel R); [done|]. intros y w1. by apply (bind_rel R).
Qed.

Lemma async_rel (R : relation World) {A} (c : Op A) w :
  R w (world_of (c w)) → R w (world_of (async c w)).
Proof. unfold async. by destruct (c w). Qed.

(** ** The registry: kinds *)

Lemma isScriptLoaded_bad type url w :
  type ≠ "js" ∧ type ≠ "css" →
  isScriptLoaded type url w = Thrown w (badKind "isScriptLoaded" type).
Proof. intros H. unfold isScriptLoaded. by rewrite decide_True. Qed.

Lemma isScriptLoaded_good type url w :
  ¬ (type ≠ "js" ∧ type ≠ "css") →
  isScriptLoaded type url w =
    Normal w (bool_decide (url ∈ if decide (type = "js") then loadedJs (mgr w)
                                 else loadedCss (mgr w))).
Proof.
  intros H. unfold isScriptLoaded. rewrite decide_False by done.
  unfold gets. by destruct (decide (type = "js")).
Qed.

Lemma markScriptLoaded_bad type url w :
  type ≠ "js" ∧ type ≠ "css" →
  markScriptLoaded type url w = Thrown w (badKind "markScriptLoaded" type).
Proof. intros H. unfold markScriptLoaded. by rewrite decide_True. Qed.

Lemma markScriptLoaded_good type url w :
  ¬ (type ≠ "js" ∧ type ≠ "css") →
  ∃ w', markScriptLoaded type url w = Normal w' tt.
Proof.
  intros H. unfold markScriptLoaded. rewrite decide_False by done.
  unfold bind, modify, gets.
  destruct (pendingScripts _ !! _); eauto.
Qed.

(** C8: [markScriptLoaded] and [isScriptLoaded] throw, with the error that
    names the offending kind, exactly when the kind is neither ["js"] nor
    ["css"]; and the world in which they throw is the world in which they were
    called, so the loaded-URL sets and the pending-waiter map (and all the
    rest) are as before. *)
Theorem badKind_exact_and_atomic (type url : string) (w : World) :
  ((∃ w' e, markScriptLoaded type url w = Thrown w' e) ↔ (type ≠ "js" ∧ type ≠ "css")) ∧
  ((∃ w' e, isScriptLoaded type url w = Thrown w' e) ↔ (type ≠ "js" ∧ type ≠ "css")) ∧
  (∀ w' e, markScriptLoaded type url w = Thrown w' e →
           w' = w ∧ e = badKind "markScriptLoaded" type) ∧
  (∀ w' e, isScriptLoaded type url w = Thrown w' e →
           w' = w ∧ e = badKind "isScriptLoaded" type).
Proof.
  destruct (decide (type ≠ "js" ∧ type ≠ "css")) as [Hbad|Hok].
  - rewrite (markScriptLoaded_bad _ url w Hbad), (isScriptLoaded_bad _ url w Hbad).
    split_and!; [split; eauto | split; eauto | by intros ?? [= <- <-] ..].
  - destruct (markScriptLoaded_good type url w Hok) as [w1 ->].
    rewrite (isScriptLoaded_good _ url w Hok).
    split_and!; [split; [by intros (? & ? & ?) | done] ..| done | done].
Qed.

(** ** The loader: descriptors without a URL *)








(** ** The readiness predicate *)

(** The three conditions of the specification, in its words. *)
Definition callbacksRegistered (m : Manager) (call : PendingCall) : Prop :=
  ∃ fn fns, components m !! compClsId call = Some (fn :: fns).

Definition factoryRegistered (m : Manager) (call : PendingCall) : Prop :=
  ∀ hash, jsVarsHash call = Some hash →
          is_Some (componentInputs m !! dataKey (compClsId call) hash).

Definition waitSucceeded (m : Manager) (call : PendingCall) : Prop :=
  is_Some (waitForPromise call) →
  promiseCompletionStatus m !! callKeyOf call = Some None.

Definition ready (m : Manager) (call : PendingCall) : Prop :=
  callbacksRegistered m call ∧ factoryRegistered m call ∧ waitSucceeded m call.

Lemma isCallBlocked_false_ready call m : _isCallBlocked call m = false ↔ ready m call.
Proof.
  unfold _isCallBlocked, ready, callbacksRegistered, factoryRegistered, waitSucceeded.
  destruct (components m !! compClsId call) as [[|fn fns]|] eqn:Hc.
  - split; [done|]. by intros [(? & ? & ?) _].
  - destruct (jsVarsHash call) as [hash|] eqn:Hh.
    + destruct (componentInputs m !! dataKey (compClsId call) hash) eqn:Hd.
      * destruct (waitForPromise call) as [p|] eqn:Hw.
        -- destruct (promiseCompletionStatus m !! callKeyOf call) as [[e|]|] eqn:Hl.
           ++ split; [done|]. intros (_ & _ & H). by specialize (H (mk_is_Some _ _ eq_refl)).
           ++ split; [|done]. intros _. split_and!; eauto.
              intros ? [= <-]. by rewrite Hd.
           ++ split; [done|]. intros (_ & _ & H). by specialize (H (mk_is_Some _ _ eq_refl)).
        -- split; [|done]. intros _. split_and!; eauto.
           ++ intros ? [= <-]. by rewrite Hd.
           ++ by intros [? [=]].
      * split; [done|]. intros (_ & H & _).
        specialize (H _ eq_refl). rewrite Hd in H. by destruct H.
    + destruct (waitForPromise call) as [p|] eqn:Hw.
      * destruct (promiseCompletionStatus m !! callKeyOf call) as [[e|]|] eqn:Hl.
        -- split; [done|]. intros (_ & _ & H). by specialize (H (mk_is_Some _ _ eq_refl)).
        -- split; [|done]. intros _. split_and!; eauto. by intros ? [=].
        -- split; [done|]. intros (_ & _ & H). by specialize (H (mk_is_Some _ _ eq_refl)).
      * split; [|done]. intros _. split_and!; eauto; [by intros ? [=] | by intros [? [=]]].
  - split; [done|]. by intros [(? & ? & ?) _].
Qed.




Lemma ready_not_failed call m : ready m call → failedStatus call m = None.
Proof.
  intros (_ & _ & Hw). unfold failedStatus.
  destruct (waitForPromise call) eqn:E; [|done].
  rewrite Hw; [done | by rewrite E].
Qed.

Lemma drainLoop_awaits_iff_ready w call rest :
  pendingComponentCalls (mgr w) = call :: rest →
  (drainLoop w).2 = DrainAwaiting call ↔ ready (mgr w) call.
Proof.
  intros Hq. unfold drainLoop. rewrite Hq. split.
  - destruct (failedStatus call (mgr w)); [done|].
    destruct (_isCallBlocked call (mgr w)) eqn:Hb; [done|]. intros _.
    by apply isCallBlocked_false_ready.
  - intros Hr. rewrite (ready_not_failed _ _ Hr).
    apply isCallBlocked_false_ready in Hr. by rewrite Hr.
Qed.


(** ** Waiters: two waits for one URL *)

(** A wait for a URL that is not loaded and is not itself a key of
    [pendingScripts] makes a new latch and stores it under [type:url],
    whether or not an entry is already there. *)
Lemma waitForOne_new_latch type url w :
  ¬ (type ≠ "js" ∧ type ≠ "css") →
  url ∉ (if decide (type = "js") then loadedJs (mgr w) else loadedCss (mgr w)) →
  pendingScripts (mgr w) !! url = None →
  waitForOne type url w =
    Normal (mkWorld (set_pendingScripts (insert (type +:+ ":" +:+ url) (nextPromise (env w)))
                       (mgr w))
                    (newPromise false (env w)).1)
           (PRef (nextPromise (env w))).
Proof.
  intros Hk Hnot Hnone. unfold waitForOne, bind.
  rewrite isScriptLoaded_good by done. rewrite bool_decide_false by done.
  unfold gets. by rewrite Hnone.
Qed.

(** C2 (what the code does): two calls of [waitForScriptsToLoad] for the same
    URL, not loaded yet, hand out two different latches, because the lookup is
    made under [url] and the entry is stored under [type:url]; the second entry
    replaces the first, and [markScriptLoaded] resolves the second latch only.
    The first waiter stays pending. *)
Theorem markScriptLoaded_misses_first_waiter :
  ∃ w1 w2 w3 p1 p2,
    waitForScriptsToLoad "js" ["/a.js"] (createComponentsManager [] []) = Normal w1 [PRef p1] ∧
    waitForScriptsToLoad "js" ["/a.js"] w1 = Normal w2 [PRef p2] ∧
    markScriptLoaded "js" "/a.js" w2 = Normal w3 tt ∧
    p1 ≠ p2 ∧
    promiseState (PRef p1) (env w3) = Some Pending ∧
    promiseState (PRef p2) (env w3) = Some (Fulfilled VUndefined) ∧
    allFulfilled [PRef p1] (env w3) = false.
Proof.
  eexists _, _, _, 0, 1. split_and!; [vm_compute; reflexivity .. | done | | |];
    vm_compute; reflexivity.
Qed.

(** ** The flush *)

Definition constantly (v : JsValue) : ComponentFn := λ _ _ hp, (hp, Returned v).

Definition boom : Error := mkError "boom".

(** A callback for ["z"], a page promise, activation [("z","1")] waiting on
    it, activation [("z","2")] behind; the promise rejects and its
    continuation runs. *)
Definition flushRun : list Event :=
  [ RegisterComponent "z" (constantly (VNum 1));
    PageNewPromise;
    CallComponent "z" "1" None (Some (PRef 0)) 5;
    CallComponent "z" "2" None None 6;
    PageSettles 0 (Rejected boom);
    RunJob 0 ].

Definition flushHead : PendingCall :=
  mkCall "z" "1" None 5 (Some (PRef 0)) (Some 1) (Some 1).

(** The branch of the drain that throws, in general: the queue and the ledger
    are emptied and the guard is reset; the host, with its interval, and
    [warningIntervalId] are as before. *)
Lemma drainLoop_flush w call rest status :
  pendingComponentCalls (mgr w) = call :: rest →
  failedStatus call (mgr w) = Some status →
  drainLoop w = (flushQueue w, DrainThrew (scriptLoadFailed call status)).
Proof. intros Hq Hf. unfold drainLoop. by rewrite Hq, Hf. Qed.

Lemma flushQueue_effect w :
  pendingComponentCalls (mgr (flushQueue w)) = [] ∧
  promiseCompletionStatus (mgr (flushQueue w)) = ∅ ∧
  isProcessingPendingCalls (mgr (flushQueue w)) = false ∧
  warningIntervalId (mgr (flushQueue w)) = warningIntervalId (mgr w) ∧
  env (flushQueue w) = env w.
Proof. done. Qed.

(** C3 (what the code does): when the head's wait-promise has failed, the
    drain empties the queue and the ledger, and its promise rejects with the
    error that names the head and carries the recorded message; the promises
    of the dropped activations stay pending, and no callback runs.  The
    interval of the stall reporter is still registered and
    [warningIntervalId] still holds it: the [throw] leaves before the lines
    that clear it. *)
Theorem flush_leaves_timer_armed :
  let before := run (createComponentsManager [] []) (take 5 flushRun) in
  let after := run (createComponentsManager [] []) flushRun in
  jobs (env before) = [mkJob "z:1:null" (Some boom)] ∧
  head (pendingComponentCalls (mgr before)) = Some flushHead ∧
  length (pendingComponentCalls (mgr before)) = 2 ∧
  pendingComponentCalls (mgr after) = [] ∧
  promiseCompletionStatus (mgr after) = ∅ ∧
  isProcessingPendingCalls (mgr after) = false ∧
  unhandled (env after) = [scriptLoadFailed flushHead boom] ∧
  promiseState (PRef 1) (env after) = Some Pending ∧
  promiseState (PRef 2) (env after) = Some Pending ∧
  execLog (env after) = [] ∧
  warningIntervalId (mgr after) = Some 0 ∧
  0 ∈ intervals (env after).
Proof.
  split_and!; vm_compute; reflexivity.
Qed.

(** ** A call for a component that is already registered *)

Definition tableRun : list Event :=
  [ RegisterComponent "table" (constantly (VNum 123));
    CallComponent "table" "i1" None None 0 ].

Definition tablePage : list Element :=
  [mkElement "div" {["data-djc-id-i1" := ""]} "" None].

(** Enqueueing without a wait-promise, in general: the activation joins the
    queue under a fresh pending promise; nothing is executed, nothing is
    scheduled, and no drain has run. *)
Lemma queueComponentCall_no_wait cls cid hash now w :
  let w' := world_of (queueComponentCall cls cid hash None now w) in
  let p := nextPromise (env w) in
  pendingComponentCalls (mgr w') =
    pendingComponentCalls (mgr w) ++ [mkCall cls cid hash now None (Some p) (Some p)] ∧
  promises (env w') = <[p := mkCell Pending [] false]> (promises (env w)) ∧
  execLog (env w') = execLog (env w) ∧
  jobs (env w') = jobs (env w) ∧
  suspended (env w') = suspended (env w) ∧
  isProcessingPendingCalls (mgr w') = isProcessingPendingCalls (mgr w) ∧
  promiseCompletionStatus (mgr w') = promiseCompletionStatus (mgr w).
Proof.
  unfold queueComponentCall, bind, ret, modify, gets. simpl.
  destruct (pendingComponentCalls (mgr w) ++ _) eqn:Hq; [by destruct (pendingComponentCalls (mgr w))|].
  rewrite <- Hq. unfold _startWarningInterval. simpl.
  by destruct (warningIntervalId (mgr w)).
Qed.

(** C4 (what the code does): after the callback for ["table"] is registered,
    [callComponent("table", "i1", null)] puts the activation in the queue and
    returns; it asks for no drain.  The activation is not executed, the
    returned promise is pending, and nothing is scheduled that would change
    that: no microtask, no suspended drain.  It runs when some other call
    asks for a drain, here a registration for an unrelated component. *)
Theorem callComponent_requests_no_drain :
  let w := run (createComponentsManager [] tablePage) tableRun in
  let act := mkCall "table" "i1" None 0 None (Some 0) (Some 0) in
  pendingComponentCalls (mgr w) = [act] ∧
  _isCallBlocked act (mgr w) = false ∧
  execLog (env w) = [] ∧
  promiseState (PRef 0) (env w) = Some Pending ∧
  jobs (env w) = [] ∧
  suspended (env w) = None ∧
  isProcessingPendingCalls (mgr w) = false ∧
  let w' := run w [RegisterComponent "other" (constantly VUndefined); ResumeDrain] in
  execLog (env w') = [act] ∧
  promiseState (PRef 0) (env w') = Some (Fulfilled (VNum 123)).
Proof. cbv zeta. split_and!; vm_compute; reflexivity. Qed.

(** ** One execution: one data object, one context *)

Definition isNormal {A} (c : Completion A) : Prop :=
  match c with Normal _ _ => True | Thrown _ _ => False end.



(** A factory that makes a new object at every call, as [jsonFactory] does. *)
Definition allocating (f : DataFn) : Prop :=
  ∀ hp, ∃ o, f hp = ((alloc o hp).1, Returned (nextLoc hp)).

Lemma jsonFactory_allocating fields : allocating (jsonFactory (Returned fields)).
Proof. intros hp. by exists (ODict fields). Qed.


Section OneExecution.
Variables (cls cid hash : string) (w : World).
Variables (fn : ComponentFn) (fns : list ComponentFn) (factory : DataFn).
Variables (el : Element) (elems : list Element).
Hypothesis Hfns : components (mgr w) !! cls = Some (fn :: fns).
Hypothesis Hfactory : componentInputs (mgr w) !! dataKey cls hash = Some factory.
Hypothesis Helems : querySelectorAll_djcId cid (env w) = el :: elems.


End OneExecution.








(** ** Loading an asset twice *)

Definition srcOf (e : Element) : option string := attributes e !! "src".
Definition hrefOf (e : Element) : option string := attributes e !! "href".

(** The calls of the registry and the loader. *)
Definition assetEvent (ev : Event) : Prop :=
  match ev with
  | LoadJs _ | LoadCss _ | MarkScriptLoaded _ _ | WaitForScriptsToLoad _ _ => True
  | _ => False
  end.

(** What one such call may do to the document and the loaded sets: the sets
    only grow, and at most one node is added, for a URL that was not loaded
    before the call and is loaded after it. *)
Definition addsAtMostOne (url : Element → option string)
    (loaded loaded' : gset string) (doc doc' : list Element) : Prop :=
  doc' = doc ∨ ∃ u el, doc' = doc ++ [el] ∧ url el = Some u ∧ (u ∉ loaded) ∧ (u ∈ loaded').

Definition assetEffect (w w' : World) : Prop :=
  loadedJs (mgr w) ⊆ loadedJs (mgr w') ∧
  loadedCss (mgr w) ⊆ loadedCss (mgr w') ∧
  addsAtMostOne srcOf (loadedJs (mgr w)) (loadedJs (mgr w')) (docBody (env w)) (docBody (env w')) ∧
  addsAtMostOne hrefOf (loadedCss (mgr w)) (loadedCss (mgr w')) (docHead (env w)) (docHead (env w')).

Lemma assetEffect_refl w : assetEffect w w.
Proof. split_and!; by try left. Qed.

Lemma settle_doc p st h :
  docHead (settle p st h) = docHead h ∧ docBody (settle p st h) = docBody h.
Proof. unfold settle. by destruct (promises h !! p) as [[[] ? ?]|]. Qed.

Lemma markScriptLoaded_effect type url w :
  let w' := world_of (markScriptLoaded type url w) in
  loadedJs (mgr w) ⊆ loadedJs (mgr w') ∧
  loadedCss (mgr w) ⊆ loadedCss (mgr w') ∧
  docHead (env w') = docHead (env w) ∧
  docBody (env w') = docBody (env w) ∧
  (isNormal (markScriptLoaded type url w) → type = "js" → url ∈ loadedJs (mgr w')) ∧
  (isNormal (markScriptLoaded type url w) → type = "css" → url ∈ loadedCss (mgr w')).
Proof.
  unfold markScriptLoaded. case_decide as Hk; [by simpl|].
  unfold bind, modify, gets. simpl.
  destruct (pendingScripts _ !! _) as [latch|]; simpl;
    [destruct (settle_doc latch (Fulfilled VUndefined) (env w)) as [-> ->]|];
    (destruct (decide (type = "js")) as [->|Hjs]; simpl;
     [split_and!; try done; try set_solver; intros _ [=]
     |split_and!; try done; try set_solver]).
Qed.

Lemma urlString_Some v u : urlString v = Some u → v = Some (AStr u) ∧ u ≠ "".
Proof.
  unfold urlString. destruct v as [[s|b]|]; try done.
  case_decide; [done|]. by intros [= <-].
Qed.


Lemma rendered_url key data u :
  attrs data !! key = Some (AStr u) → omap renderAttr (attrs data) !! key = Some u.
Proof. intros H. by rewrite lookup_omap, H. Qed.

Lemma isScriptLoaded_js url w :
  isScriptLoaded "js" url w = Normal w (bool_decide (url ∈ loadedJs (mgr w))).
Proof. by rewrite isScriptLoaded_good by (by intros [? _]). Qed.

Lemma isScriptLoaded_css url w :
  isScriptLoaded "css" url w = Normal w (bool_decide (url ∈ loadedCss (mgr w))).
Proof. by rewrite isScriptLoaded_good by (by intros [_ ?]). Qed.

Lemma markScriptLoaded_js url w :
  ∃ w', markScriptLoaded "js" url w = Normal w' tt.
Proof. apply markScriptLoaded_good. by intros [? _]. Qed.

Lemma markScriptLoaded_css url w :
  ∃ w', markScriptLoaded "css" url w = Normal w' tt.
Proof. apply markScriptLoaded_good. by intros [_ ?]. Qed.

Lemma loadJs_effect data w : assetEffect w (world_of (loadJs data w)).
Proof.
  unfold loadJs, bind, lift. unfold createScriptElement.
  case_decide as Htag; [apply assetEffect_refl|]. unfold ret at 1.
  destruct (urlString (attrs data !! "src")) as [src|] eqn:Hsrc; [|apply assetEffect_refl].
  apply urlString_Some in Hsrc as [Hsrc _].
  rewrite isScriptLoaded_js. case_bool_decide as Hin; [apply assetEffect_refl|].
  pose proof (markScriptLoaded_effect "js" src w) as (Hjs & Hcss & Hhd & Hbd & Hmark & _).
  destruct (markScriptLoaded_js src w) as [w1 Hw1]. rewrite Hw1 in *. simpl in *.
  unfold assetEffect. simpl. split_and!; try done.
  - right. eexists src, _. split_and!; [by rewrite Hbd | | done | by apply Hmark].
    unfold srcOf. simpl. by apply rendered_url.
  - left. by rewrite Hhd.
Qed.

Lemma loadCss_effect data w : assetEffect w (world_of (loadCss data w)).
Proof.
  unfold loadCss, bind, lift. unfold createLinkElement.
  case_decide as Htag; [apply assetEffect_refl|]. unfold ret at 1.
  destruct (urlString (attrs data !! "href")) as [href|] eqn:Hhref; [|apply assetEffect_refl].
  apply urlString_Some in Hhref as [Hhref _].
  rewrite isScriptLoaded_css. case_bool_decide as Hin; [apply assetEffect_refl|].
  unfold modify at 1.
  set (w0 := on_env _ w).
  pose proof (markScriptLoaded_effect "css" href w0) as (Hjs & Hcss & Hhd & Hbd & _ & Hmark).
  destruct (markScriptLoaded_css href w0) as [w1 Hw1]. rewrite Hw1 in *. simpl in *.
  unfold assetEffect. simpl. split_and!; try done.
  - left. by rewrite Hbd.
  - right. eexists href, _. split_and!; [by rewrite Hhd | | done | by apply Hmark].
    unfold hrefOf. simpl. by apply rendered_url.
Qed.

(** The calls that leave the loaded sets and the document alone. *)
Definition sameAssets (w w' : World) : Prop :=
  loadedJs (mgr w') = loadedJs (mgr w) ∧ loadedCss (mgr w') = loadedCss (mgr w) ∧
  docHead (env w') = docHead (env w) ∧ docBody (env w') = docBody (env w).

#[global] Instance sameAssets_preorder : PreOrder sameAssets.
Proof.
  split; [by intros w|].
  intros w1 w2 w3 (H1 & H2 & H3 & H4) (H5 & H6 & H7 & H8).
  split_and!; congruence.
Qed.

Lemma waitForOne_same type url w : sameAssets w (world_of (waitForOne type url w)).
Proof.
  unfold waitForOne, bind, isScriptLoaded. case_decide; [done|]. unfold gets.
  case_bool_decide; [done|]. by destruct (pendingScripts _ !! _).
Qed.

Lemma waitForScriptsToLoad_same type urls w :
  sameAssets w (world_of (waitForScriptsToLoad type urls w)).
Proof.
  revert w. induction urls as [|url rest IH]; intros w; [done|]. simpl.
  apply (bind_rel sameAssets); [apply waitForOne_same|]. intros p w1.
  by apply (bind_rel sameAssets).
Qed.

Lemma assetEvent_effect w ev : assetEvent ev → assetEffect w (step w ev).
Proof.
  destruct ev; try done; intros _; simpl; unfold run_op.
  - apply loadJs_effect.
  - apply loadCss_effect.
  - pose proof (markScriptLoaded_effect type url w) as (? & ? & Hh & Hb & _).
    split_and!; try done; left; done.
  - pose proof (waitForScriptsToLoad_same type urls w) as (Hj & Hc & Hh & Hb).
    split_and!; [by rewrite Hj | by rewrite Hc | by left | by left].
Qed.


Lemma run_cons w ev evs : run w (ev :: evs) = run (step w ev) evs.
Proof. done. Qed.







Definition aJs : TagJson := mkTag "script" {["src" := AStr "/a.js"]} "".


(** ** What an execution can touch *)

Ltac unfold_updates :=
  cbv [on_env on_mgr set_loadedJs set_loadedCss set_components set_componentInputs
       set_pendingScripts set_pendingComponentCalls set_isProcessingPendingCalls
       set_warningIntervalId set_promiseCompletionStatus set_promises set_nextPromise
       set_jobs set_docHead set_docBody set_intervals set_console set_heap set_unhandled
       set_suspended set_enqueueLog set_execLog set_invocations set_factoryCalls
       mgr env loadedJs loadedCss components componentInputs pendingScripts
       pendingComponentCalls isProcessingPendingCalls warningIntervalId
       promiseCompletionStatus promises nextPromise jobs docHead docBody intervals
       nextInterval console heap unhandled suspended enqueueLog execLog invocations
       factoryCalls].

Ltac frame_refl := eexists _, _, _; unfold_updates; reflexivity.

(** Executing an activation changes the heap and the two histories of calls,
    and nothing else: not the manager, not the promises, not the document. *)
Definition heapFrame (w w' : World) : Prop :=
  ∃ hp inv fc,
    w' = mkWorld (mgr w)
           (set_factoryCalls (λ _, fc) (set_invocations (λ _, inv) (set_heap hp (env w)))).

#[global] Instance heapFrame_preorder : PreOrder heapFrame.
Proof.
  split.
  - intros [m []]. frame_refl.
  - intros [m1 []] w2 w3 (hp & inv & fc & ->) (hp' & inv' & fc' & ->). frame_refl.
Qed.

Lemma callWithAsyncErrorHandling_frame cls i fn data ctx w :
  heapFrame w (world_of (callWithAsyncErrorHandling cls i fn data ctx w)).
Proof.
  unfold callWithAsyncErrorHandling. destruct w as [m []]. simpl.
  destruct (fn data ctx _) as [hp [v|e]]; frame_refl.
Qed.

Lemma callInSequence_frame cls data ctx fns :
  ∀ i last w, heapFrame w (world_of (callInSequence cls data ctx fns i last w)).
Proof.
  induction fns as [|f rest IH]; intros i last w; [done|]. simpl.
  apply (bind_rel heapFrame); [apply callWithAsyncErrorHandling_frame|].
  intros v w1. apply IH.
Qed.

Lemma allocObject_frame o w : heapFrame w (world_of (allocObject o w)).
Proof. destruct w as [m []]. frame_refl. Qed.

Lemma callFactory_frame key f w : heapFrame w (world_of (callFactory key f w)).
Proof.
  unfold callFactory. destruct w as [m []]. simpl.
  destruct (f _) as [hp [l|e]]; frame_refl.
Qed.

Lemma callUnblockedComponent_frame cls cid hash w :
  heapFrame w (world_of (callUnblockedComponent cls cid hash w)).
Proof.
  unfold callUnblockedComponent.
  apply (bind_rel heapFrame); [done|]. intros [[|fn fns]|] w1; [done| |done].
  apply (bind_rel heapFrame); [done|]. intros [|el elems] w2; [done|].
  apply (bind_rel heapFrame); [apply allocObject_frame|]. intros empty w3.
  apply (bind_rel heapFrame).
  - intros w4. destruct hash as [hash|]; [|done].
    apply (bind_rel heapFrame); [done|]. intros [dataFactory|] w5; [|done].
    apply callFactory_frame.
  - intros data w4. apply (bind_rel heapFrame); [apply allocObject_frame|].
    intros ctx w5. apply callInSequence_frame.
Qed.

Lemma execute_frame call w : heapFrame w (execute call w).1.
Proof.
  unfold execute.
  pose proof (callUnblockedComponent_frame (compClsId call) (compId call) (jsVarsHash call) w).
  by destruct (callUnblockedComponent _ _ _ w).
Qed.

(** The drain takes the head, and only the head. *)
Lemma drainLoop_takes_head w :
  let x := drainLoop w in
  (execLog (env x.1) = execLog (env w) ∧ ∀ call, x.2 ≠ DrainAwaiting call) ∨
  (∃ call rest,
     pendingComponentCalls (mgr w) = call :: rest ∧
     x.2 = DrainAwaiting call ∧
     execLog (env x.1) = execLog (env w) ++ [call] ∧
     pendingComponentCalls (mgr x.1) = rest ∧
     enqueueLog (env x.1) = enqueueLog (env w) ∧
     nextPromise (env x.1) = nextPromise (env w)).
Proof.
  unfold drainLoop.
  destruct (pendingComponentCalls (mgr w)) as [|call rest] eqn:Hq.
  { left. split; [|done]. unfold leaveDrain. rewrite Hq.
    by destruct (warningIntervalId (mgr w)). }
  destruct (failedStatus call (mgr w)); [by left|].
  destruct (_isCallBlocked call (mgr w)).
  { left. split; [|done]. unfold leaveDrain. by rewrite Hq. }
  right. exists call, rest. split; [done|]. split; [done|].
  destruct (execute_frame call (takeHead call rest w)) as (hp & inv & fc & ->).
  unfold takeHead. by destruct (waitForPromise call).
Qed.

(** ** A failing activation *)

Lemma settle_other p st h q : q ≠ p → promises (settle p st h) !! q = promises h !! q.
Proof.
  intros Hne. unfold settle. destruct (promises h !! p) as [[[] ? ?]|]; try done.
  simpl. by rewrite lookup_insert_ne.
Qed.

Lemma settle_pending p st h cell :
  promises h !! p = Some cell → pstate cell = Pending →
  pstate <$> promises (settle p st h) !! p = Some st.
Proof.
  intros Hp Hst. unfold settle. rewrite Hp. destruct cell as [s rs ext]. simpl in Hst.
  subst s. simpl. by rewrite lookup_insert_eq.
Qed.

Lemma settle_keeps p st h :
  console (settle p st h) = console h ∧ unhandled (settle p st h) = unhandled h ∧
  execLog (settle p st h) = execLog h ∧ enqueueLog (settle p st h) = enqueueLog h ∧
  nextPromise (settle p st h) = nextPromise h ∧ suspended (settle p st h) = suspended h.
Proof. unfold settle. by destruct (promises h !! p) as [[[] ? ?]|]. Qed.

Lemma drainLoop_ready w next rest :
  pendingComponentCalls (mgr w) = next :: rest → ready (mgr w) next →
  (drainLoop w).2 = DrainAwaiting next ∧
  execLog (env (drainLoop w).1) = execLog (env w) ++ [next] ∧
  pendingComponentCalls (mgr (drainLoop w).1) = rest.
Proof.
  intros Hq Hr.
  destruct (drainLoop_takes_head w) as [[_ Hno]|(c & r & Hq' & Hres & Hlog & Hrest & _)].
  - apply (drainLoop_awaits_iff_ready w next rest Hq) in Hr. by apply Hno in Hr.
  - rewrite Hq in Hq'. injection Hq' as <- <-. done.
Qed.

(** C9: the drain was suspended on activation [call], and executing it
    failed with [error].  When the drain resumes, the [catch] leaves the
    whole state of the manager as it was (the queue is not emptied, no ledger
    entry is touched) and settles no promise but the one of [call], which it
    rejects with [error]; with no rejecter it writes the error to the console
    instead.  Then the loop goes on: if the next head is ready, it is taken
    from the queue and enters execution.  A drain that starts an activation
    whose [callUnblockedComponent] throws is suspended in exactly that state. *)
Theorem callback_failure_isolated (w : World) (call : PendingCall) (error : Error) :
  suspended (env w) = Some (call, Failed error) →
  let w1 := settleCall call (Failed error) (on_env (set_suspended None) w) in
  resumeDrain w = drainLoop w1 ∧
  mgr w1 = mgr w ∧
  unhandled (env w1) = unhandled (env w) ∧
  (∀ p, reject call = Some p →
     (∀ q, q ≠ p → promises (env w1) !! q = promises (env w) !! q) ∧
     (∀ cell, promises (env w) !! p = Some cell → pstate cell = Pending →
              pstate <$> promises (env w1) !! p = Some (Rejected error)) ∧
     console (env w1) = console (env w)) ∧
  (reject call = None →
     promises (env w1) = promises (env w) ∧
     ∃ msg, console (env w1) = console (env w) ++ [LogError msg error]) ∧
  (∀ next rest,
     pendingComponentCalls (mgr w) = next :: rest → ready (mgr w) next →
     (resumeDrain w).2 = DrainAwaiting next ∧
     execLog (env (resumeDrain w).1) = execLog (env w) ++ [next] ∧
     pendingComponentCalls (mgr (resumeDrain w).1) = rest) ∧
  (∀ w0 rest w',
     pendingComponentCalls (mgr w0) = call :: rest → ready (mgr w0) call →
     callUnblockedComponent (compClsId call) (compId call) (jsVarsHash call)
       (takeHead call rest w0) = Thrown w' error →
     suspended (env (drainLoop w0).1) = Some (call, Failed error)).
Proof.
  intros Hs w1.
  assert (Hres : resumeDrain w = drainLoop w1) by (unfold resumeDrain; by rewrite Hs).
  assert (Hm : mgr w1 = mgr w).
  { unfold w1, settleCall. by destruct (reject call). }
  assert (Hx : execLog (env w1) = execLog (env w)).
  { unfold w1, settleCall. destruct (reject call) as [p|]; [|done]. simpl.
    by destruct (settle_keeps p (Rejected error) (set_suspended None (env w)))
      as (_ & _ & -> & _). }
  split_and!; try done.
  - unfold w1, settleCall. destruct (reject call) as [p|]; [|done]. simpl.
    by destruct (settle_keeps p (Rejected error) (set_suspended None (env w)))
      as (_ & -> & _).
  - intros p Hp. unfold w1, settleCall. rewrite Hp. simpl. split_and!.
    + intros q Hq. by rewrite settle_other.
    + intros cell Hc Hpend. by apply (settle_pending _ _ _ cell).
    + by destruct (settle_keeps p (Rejected error) (set_suspended None (env w))) as (-> & _).
  - intros Hnone. unfold w1, settleCall. rewrite Hnone. simpl. eauto.
  - intros next rest Hq Hr. rewrite Hres.
    destruct (drainLoop_ready w1 next rest) as (? & ? & ?); [by rewrite Hm..|].
    by rewrite <- Hx.
  - intros w0 rest w' Hq Hr Hthrow. unfold drainLoop. rewrite Hq.
    rewrite (ready_not_failed _ _ Hr).
    apply isCallBlocked_false_ready in Hr. rewrite Hr.
    unfold execute. by rewrite Hthrow.
Qed.

(** Two activations of a registered class; the instance of the first has no
    element in the page, the instance of the second has one.  A registration
    starts the drain, which takes the first and is suspended on its failure. *)
Definition failingWorld : World :=
  run (createComponentsManager []
         [mkElement "div" {["data-djc-id-2" := ""]} "" None])
    [ RegisterComponent "x" (constantly (VNum 7));
      CallComponent "x" "1" None None 0;
      CallComponent "x" "2" None None 1;
      RegisterComponentData "x" "unused" (jsonFactory (Returned ∅)) ].

Definition firstCall : PendingCall := mkCall "x" "1" None 0 None (Some 0) (Some 0).
Definition secondCall : PendingCall := mkCall "x" "2" None 1 None (Some 1) (Some 1).

Definition noElements : Error :=
  mkError "[DjangoComponents] 'x': No elements with component ID '1' found".

Lemma callback_failure_isolated_witness :
  (resumeDrain failingWorld).2 = DrainAwaiting secondCall ∧
  execLog (env (resumeDrain failingWorld).1) = execLog (env failingWorld) ++ [secondCall] ∧
  pendingComponentCalls (mgr (resumeDrain failingWorld).1) = [].
Proof.
  refine (proj1 (proj2 (proj2 (proj2 (proj2 (proj2
            (callback_failure_isolated failingWorld firstCall noElements _))))))
            secondCall [] _ _).
  - vm_compute. reflexivity.
  - vm_compute. reflexivity.
  - apply isCallBlocked_false_ready. vm_compute. reflexivity.
Defined.

(** The same run to its end: the first promise is rejected, the second
    activation is executed and its promise resolved. *)
Example failure_then_success :
  let w := run failingWorld [ResumeDrain; ResumeDrain] in
  promiseState (PRef 0) (env w) = Some (Rejected noElements) ∧
  promiseState (PRef 1) (env w) = Some (Fulfilled (VNum 7)) ∧
  execLog (env w) = [firstCall; secondCall] ∧
  pendingComponentCalls (mgr w) = [] ∧
  unhandled (env w) = [].
Proof. cbv zeta. split_and!; vm_compute; reflexivity. Qed.

(** ** Order of execution *)

(** An activation is known by the promise that [queueComponentCall] made
    for it. *)
Definition callId (c : PendingCall) : nat := default 0 (resolve c).

(** The activations that were executed, followed by those that wait, are
    among the enqueued ones, in the order of enqueueing; and that order is the
    order of their promises. *)
Definition fifoInv (w : World) : Prop :=
  (execLog (env w) ++ pendingComponentCalls (mgr w)) `sublist_of` enqueueLog (env w) ∧
  StronglySorted lt (callId <$> enqueueLog (env w)) ∧
  Forall (λ c, callId c < nextPromise (env w)) (enqueueLog (env w)).

Definition keepsFifo (w w' : World) : Prop := fifoInv w → fifoInv w'.

#[global] Instance keepsFifo_preorder : PreOrder keepsFifo.
Proof.
  split; [intros w H; exact H|]. intros w1 w2 w3 H12 H23 H. by apply H23, H12.
Qed.

(** The calls that touch neither the queue nor the histories. *)
Definition fifoFrame (w w' : World) : Prop :=
  execLog (env w') = execLog (env w) ∧
  pendingComponentCalls (mgr w') = pendingComponentCalls (mgr w) ∧
  enqueueLog (env w') = enqueueLog (env w) ∧
  nextPromise (env w) ≤ nextPromise (env w').

#[global] Instance fifoFrame_preorder : PreOrder fifoFrame.
Proof.
  split; [by intros w|].
  intros w1 w2 w3 (H1 & H2 & H3 & H4) (H5 & H6 & H7 & H8).
  split_and!; [congruence.. | lia].
Qed.

Lemma fifoFrame_keeps w w' : fifoFrame w w' → keepsFifo w w'.
Proof.
  intros (Hx & Hq & He & Hn) (Hsub & Hsort & Hlt). unfold fifoInv.
  rewrite Hx, Hq, He. split_and!; try done.
  eapply Forall_impl; [exact Hlt|]. intros c Hc. simpl in Hc. lia.
Qed.

Lemma heapFrame_fifoFrame w w' : heapFrame w w' → fifoFrame w w'.
Proof. by intros (hp & inv & fc & ->). Qed.

Lemma settle_fifoFrame p st w : fifoFrame w (on_env (settle p st) w).
Proof.
  destruct (settle_keeps p st (env w)) as (_ & _ & Hx & He & Hn & _).
  unfold fifoFrame. simpl. rewrite Hx, He, Hn. done.
Qed.

Lemma isScriptLoaded_fifoFrame type url w : fifoFrame w (world_of (isScriptLoaded type url w)).
Proof. unfold isScriptLoaded. by case_decide. Qed.

Lemma markScriptLoaded_fifoFrame type url w :
  fifoFrame w (world_of (markScriptLoaded type url w)).
Proof.
  unfold markScriptLoaded. case_decide; [done|].
  apply (bind_rel fifoFrame); [intros w1; simpl; by case_decide|]. intros _ w1.
  apply (bind_rel fifoFrame); [done|]. intros [latch|] w2; [|done].
  apply settle_fifoFrame.
Qed.

Lemma loadJs_fifoFrame data w : fifoFrame w (world_of (loadJs data w)).
Proof.
  unfold loadJs. apply (bind_rel fifoFrame).
  { intros w1. by destruct (createScriptElement data). }
  intros scriptNode w1. destruct (urlString _) as [src|]; [|done].
  apply (bind_rel fifoFrame); [apply isScriptLoaded_fifoFrame|]. intros [] w2; [done|].
  apply (bind_rel fifoFrame); [apply markScriptLoaded_fifoFrame|]. intros _ w3.
  unfold fifoFrame. simpl. split_and!; try done. lia.
Qed.

Lemma loadCss_fifoFrame data w : fifoFrame w (world_of (loadCss data w)).
Proof.
  unfold loadCss. apply (bind_rel fifoFrame).
  { intros w1. by destruct (createLinkElement data). }
  intros linkNode w1. destruct (urlString _) as [href|]; [|done].
  apply (bind_rel fifoFrame); [apply isScriptLoaded_fifoFrame|]. intros [] w2; [done|].
  apply (bind_rel fifoFrame); [done|]. intros _ w3.
  apply (bind_rel fifoFrame); [apply markScriptLoaded_fifoFrame|]. done.
Qed.

Lemma waitForOne_fifoFrame type url w : fifoFrame w (world_of (waitForOne type url w)).
Proof.
  unfold waitForOne.
  apply (bind_rel fifoFrame); [apply isScriptLoaded_fifoFrame|]. intros [] w1; [done|].
  apply (bind_rel fifoFrame); [done|]. intros [latch|] w2; [done|].
  unfold fifoFrame. simpl. split_and!; try done. lia.
Qed.

Lemma waitForScriptsToLoad_fifoFrame type urls w :
  fifoFrame w (world_of (waitForScriptsToLoad type urls w)).
Proof.
  revert w. induction urls as [|url rest IH]; intros w; [done|]. simpl.
  apply (bind_rel fifoFrame); [apply waitForOne_fifoFrame|]. intros p w1.
  by apply (bind_rel fifoFrame).
Qed.

Lemma leaveDrain_fifoFrame w : fifoFrame w (leaveDrain w).
Proof.
  unfold leaveDrain.
  by destruct (pendingComponentCalls (mgr w)), (warningIntervalId (mgr w)).
Qed.

Lemma drainLoop_keeps w : keepsFifo w (drainLoop w).1.
Proof.
  unfold drainLoop.
  destruct (pendingComponentCalls (mgr w)) as [|call rest] eqn:Hq.
  { apply fifoFrame_keeps, leaveDrain_fifoFrame. }
  destruct (failedStatus call (mgr w)).
  { intros (Hsub & Hsort & Hlt). unfold fifoInv. simpl. rewrite app_nil_r.
    split_and!; try done. etrans; [|exact Hsub]. by apply sublist_inserts_r. }
  destruct (_isCallBlocked call (mgr w)).
  { apply fifoFrame_keeps, leaveDrain_fifoFrame. }
  intros (Hsub & Hsort & Hlt). simpl.
  destruct (execute_frame call (takeHead call rest w)) as (hp & inv & fc & ->).
  unfold fifoInv, takeHead. rewrite Hq in Hsub.
  destruct (waitForPromise call); simpl; by rewrite <- app_assoc.
Qed.

Lemma surface_keeps w x : keepsFifo w x.1 → keepsFifo w (surface x).
Proof. by destruct x as [w' []]. Qed.

Lemma processPendingCalls_keeps w : keepsFifo w (_processPendingCalls w).1.
Proof.
  unfold _processPendingCalls. destruct (isProcessingPendingCalls (mgr w)); [done|].
  etrans; [|apply drainLoop_keeps]. by apply fifoFrame_keeps.
Qed.

Lemma requestDrain_keeps w : keepsFifo w (world_of (requestDrain w)).
Proof. apply surface_keeps, processPendingCalls_keeps. Qed.

Lemma settleCall_fifoFrame call r w : fifoFrame w (settleCall call r w).
Proof.
  unfold settleCall. destruct r; [destruct (resolve call)|destruct (reject call)];
    try done; apply settle_fifoFrame.
Qed.

Lemma resumeDrain_keeps w : keepsFifo w (surface (resumeDrain w)).
Proof.
  apply surface_keeps. unfold resumeDrain.
  destruct (suspended (env w)) as [[call r]|]; [|done].
  etrans; [|apply drainLoop_keeps]. apply fifoFrame_keeps.
  etrans; [|apply settleCall_fifoFrame]. done.
Qed.

Lemma modify_frame_keeps (f : World → World) :
  (∀ w, fifoFrame w (f w)) → ∀ w, keepsFifo w (world_of (modify f w)).
Proof. intros Hf w. apply fifoFrame_keeps, Hf. Qed.

Lemma registerComponent_keeps cls fn w : keepsFifo w (world_of (registerComponent cls fn w)).
Proof.
  unfold registerComponent. apply (bind_rel keepsFifo); [by apply modify_frame_keeps|].
  intros _. apply requestDrain_keeps.
Qed.

Lemma registerComponentData_keeps cls hash f w :
  keepsFifo w (world_of (registerComponentData cls hash f w)).
Proof.
  unfold registerComponentData. apply (bind_rel keepsFifo); [by apply modify_frame_keeps|].
  intros _. apply requestDrain_keeps.
Qed.

Lemma runLedgerJob_keeps j w : keepsFifo w (world_of (runLedgerJob j w)).
Proof.
  unfold runLedgerJob. apply (bind_rel keepsFifo); [by apply modify_frame_keeps|].
  intros _. apply requestDrain_keeps.
Qed.

Lemma attachLedger_fifoFrame key p w : fifoFrame w (on_env (attachLedger key p) w).
Proof.
  unfold attachLedger, fifoFrame. destruct p as [|i]; [done|]. simpl.
  by destruct (promises (env w) !! i) as [[[] ? ?]|].
Qed.

Lemma startWarningInterval_fifoFrame w : fifoFrame w (_startWarningInterval w).
Proof. unfold _startWarningInterval. by destruct (warningIntervalId (mgr w)). Qed.

(** Enqueueing: the new activation goes to the end of the queue and of the
    history, under the promise that was made for it. *)
Lemma enqueue_keeps w w' call :
  execLog (env w') = execLog (env w) →
  pendingComponentCalls (mgr w') = pendingComponentCalls (mgr w) ++ [call] →
  enqueueLog (env w') = enqueueLog (env w) ++ [call] →
  nextPromise (env w') = S (nextPromise (env w)) →
  callId call = nextPromise (env w) →
  keepsFifo w w'.
Proof.
  intros Hx Hq He Hn Hid (Hsub & Hsort & Hlt). unfold fifoInv.
  rewrite Hx, Hq, He, Hn, app_assoc. split_and!.
  - by apply sublist_app.
  - rewrite fmap_app. apply StronglySorted_app. split_and!.
    + intros a b [c [-> Hc]]%list_elem_of_fmap Hb. simpl in Hb.
      apply list_elem_of_singleton in Hb as ->. rewrite Hid.
      by apply (proj1 (Forall_forall _ _) Hlt).
    + done.
    + repeat constructor.
  - apply Forall_app. split.
    + eapply Forall_impl; [exact Hlt|]. intros c Hc. simpl in Hc. lia.
    + apply Forall_singleton. lia.
Qed.

Lemma queueComponentCall_keeps cls cid hash wait now w :
  keepsFifo w (world_of (queueComponentCall cls cid hash wait now w)).
Proof.
  unfold queueComponentCall. apply (bind_rel keepsFifo).
  { intros w1. destruct wait as [p|]; [|done].
    apply fifoFrame_keeps. apply attachLedger_fifoFrame. }
  intros _ w1. unfold bind at 1. simpl. unfold bind at 1, modify at 1.
  match goal with |- keepsFifo _ (world_of (_ ?pushed)) => set (w2 := pushed) end.
  trans w2; [by eapply enqueue_keeps|]. clearbody w2. revert w2.
  apply (bind_rel keepsFifo); [done|]. intros queued w2.
  apply (bind_rel keepsFifo); [|done]. intros w3.
  destruct queued; [done|]. apply fifoFrame_keeps, startWarningInterval_fifoFrame.
Qed.

Lemma promiseAll_fifoFrame ps w : fifoFrame w (world_of (promiseAll ps w)).
Proof.
  unfold promiseAll. destruct (allFulfilled ps (env w)); [done|].
  unfold fifoFrame. simpl. split_and!; try done. lia.
Qed.

Lemma loadComponentScripts_keeps inputs now w :
  keepsFifo w (world_of (_loadComponentScripts inputs now w)).
Proof.
  unfold _loadComponentScripts.
  apply (bind_rel keepsFifo).
  { apply (forEach_rel keepsFifo). intros [[c h] j] w1. apply registerComponentData_keeps. }
  intros _ w1. apply (bind_rel keepsFifo).
  { apply (forEach_rel keepsFifo). intros u w2.
    apply fifoFrame_keeps, markScriptLoaded_fifoFrame. }
  intros _ w2. apply (bind_rel keepsFifo).
  { apply (forEach_rel keepsFifo). intros u w3.
    apply fifoFrame_keeps, markScriptLoaded_fifoFrame. }
  intros _ w3. apply (bind_rel keepsFifo).
  { apply (mapOp_rel keepsFifo). intros d w4. apply fifoFrame_keeps, loadCss_fifoFrame. }
  intros _ w4. apply (bind_rel keepsFifo).
  { apply (mapOp_rel keepsFifo). intros d w5. apply (bind_rel keepsFifo); [|done].
    intros w6. apply fifoFrame_keeps, loadJs_fifoFrame. }
  intros jsScripts w5. apply (bind_rel keepsFifo).
  { intros w6. apply async_rel, fifoFrame_keeps, waitForScriptsToLoad_fifoFrame. }
  intros jsScripts2 w6. apply (bind_rel keepsFifo).
  { intros w7. apply fifoFrame_keeps, promiseAll_fifoFrame. }
  intros scriptsLoadPromise w7. apply (bind_rel keepsFifo).
  { apply (forEach_rel keepsFifo). intros [[c i] h] w8.
    apply (bind_rel keepsFifo); [|done]. intros w9. apply queueComponentCall_keeps. }
  intros _ w8. apply requestDrain_keeps.
Qed.

Lemma step_keeps w ev : keepsFifo w (step w ev).
Proof.
  destruct ev; simpl; unfold run_op.
  - apply registerComponent_keeps.
  - apply registerComponentData_keeps.
  - apply queueComponentCall_keeps.
  - apply fifoFrame_keeps, loadJs_fifoFrame.
  - apply fifoFrame_keeps, loadCss_fifoFrame.
  - apply fifoFrame_keeps, markScriptLoaded_fifoFrame.
  - apply fifoFrame_keeps, waitForScriptsToLoad_fifoFrame.
  - apply loadComponentScripts_keeps.
  - apply fifoFrame_keeps. unfold fifoFrame. simpl. split_and!; try done. lia.
  - destruct st; [done| |]; (destruct (promises (env w) !! p) as [[[] ? []]|]; try done;
      apply fifoFrame_keeps, settle_fifoFrame).
  - by apply fifoFrame_keeps.
  - destruct (jobs (env w) !! i) as [j|]; [|done].
    etrans; [|apply runLedgerJob_keeps]. by apply fifoFrame_keeps.
  - apply resumeDrain_keeps.
  - case_decide; [|done]. unfold warningTick.
    destruct (List.filter _ _); by apply fifoFrame_keeps.
Qed.

Lemma run_keeps evs : ∀ w, keepsFifo w (run w evs).
Proof.
  induction evs as [|ev evs IH]; intros w; [done|]. rewrite run_cons.
  etrans; [apply step_keeps|apply IH].
Qed.

Lemma reachable_fifoInv w : reachable w → fifoInv w.
Proof.
  intros (head & body & evs & ->). apply run_keeps.
  unfold fifoInv. simpl. split_and!; [done | constructor | constructor].
Qed.


Lemma StronglySorted_sublist {A} (R : relation A) (l1 l2 : list A) :
  l1 `sublist_of` l2 → StronglySorted R l2 → StronglySorted R l1.
Proof.
  induction 1 as [|x l1 l2 Hsub IH|x l1 l2 Hsub IH]; intros Hs; [done|..].
  - apply StronglySorted_cons in Hs as [Hall Hs]. apply StronglySorted_cons. split; [|auto].
    apply Forall_forall. intros y Hy. apply (proj1 (Forall_forall _ _) Hall).
    by eapply elem_of_sublist.
  - apply StronglySorted_cons in Hs as [_ Hs]. auto.
Qed.



Lemma fifoInv_sorted w :
  fifoInv w →
  StronglySorted lt (callId <$> (execLog (env w) ++ pendingComponentCalls (mgr w))).
Proof.
  intros (Hsub & Hsort & _). eapply StronglySorted_sublist; [|exact Hsort].
  by apply fmap_sublist.
Qed.


(** A run with a flush in it: [("z","1")] waits on a promise that rejects and
    is dropped with [("z","2")]; [("z","3")] is enqueued afterwards and runs. *)
Definition fifoRun : list Event :=
  flushRun ++ [ PageAppends (mkElement "div" {["data-djc-id-3" := ""]} "" None);
                CallComponent "z" "3" None None 9;
                RegisterComponent "z" (constantly (VNum 2));
                ResumeDrain ].


Example fifoRun_skips_flushed :
  let w := run (createComponentsManager [] []) fifoRun in
  compId <$> enqueueLog (env w) = ["1"; "2"; "3"] ∧
  compId <$> execLog (env w) = ["3"] ∧
  pendingComponentCalls (mgr w) = [] ∧
  promiseState (PRef 3) (env w) = Some (Fulfilled (VNum 2)).
Proof. cbv zeta. split_and!; vm_compute; reflexivity. Qed.

(** * Further properties of the manager *)

(** ** The registry, per kind *)

(** [ScriptType]: the two kinds, and the strings that stand for them. *)
Inductive ScriptType := js | css.

#[global] Instance ScriptType_eq_dec : EqDecision ScriptType.
Proof. solve_decision. Defined.

Definition kindName (k : ScriptType) : string :=
  match k with js => "js" | css => "css" end.

Definition loadedSet (k : ScriptType) (m : Manager) : gset string :=
  match k with js => loadedJs m | css => loadedCss m end.

Lemma kindName_valid k : ¬ (kindName k ≠ "js" ∧ kindName k ≠ "css").
Proof. destruct k; intros [? ?]; done. Qed.

Lemma isScriptLoaded_kind k url w :
  isScriptLoaded (kindName k) url w = Normal w (bool_decide (url ∈ loadedSet k (mgr w))).
Proof. rewrite isScriptLoaded_good by apply kindName_valid. by destruct k. Qed.

Lemma markScriptLoaded_kind k url w :
  markScriptLoaded (kindName k) url w =
    Normal (let w1 := on_mgr (match k with
                              | js => set_loadedJs (union {[url]})
                              | css => set_loadedCss (union {[url]})
                              end) w in
            match pendingScripts (mgr w) !! (kindName k +:+ ":" +:+ url) with
            | Some latch => on_env (settle latch (Fulfilled VUndefined)) w1
            | None => w1
            end) tt.
Proof.
  unfold markScriptLoaded. rewrite decide_False by apply kindName_valid.
  unfold bind, modify, gets. destruct k; simpl;
    by destruct (pendingScripts (mgr w) !! _).
Qed.

Lemma markScriptLoaded_loadedSet k url w k' :
  loadedSet k' (mgr (world_of (markScriptLoaded (kindName k) url w))) =
    if decide (k' = k) then {[url]} ∪ loadedSet k' (mgr w) else loadedSet k' (mgr w).
Proof.
  rewrite markScriptLoaded_kind. simpl.
  destruct (pendingScripts (mgr w) !! _); destruct k, k'; done.
Qed.

(** X1: marking [(kind, url)] as loaded makes [isScriptLoaded] answer [true]
    for that kind and URL, and leaves its answer for every other kind or URL
    as it was: the two kinds keep separate sets. *)
Theorem markScriptLoaded_then_isScriptLoaded (k : ScriptType) (url : string) (w : World) :
  let w' := world_of (markScriptLoaded (kindName k) url w) in
  isScriptLoaded (kindName k) url w' = Normal w' true ∧
  ∀ k' url', (k', url') ≠ (k, url) →
    ∃ b, isScriptLoaded (kindName k') url' w = Normal w b ∧
         isScriptLoaded (kindName k') url' w' = Normal w' b.
Proof.
  intros w'. split.
  - rewrite isScriptLoaded_kind. unfold w'. rewrite markScriptLoaded_loadedSet.
    rewrite decide_True by done. f_equal. apply bool_decide_eq_true.
    apply elem_of_union. left. by apply elem_of_singleton.
  - intros k' url' Hne. eexists. split; [apply isScriptLoaded_kind|].
    rewrite isScriptLoaded_kind. f_equal. unfold w'. rewrite markScriptLoaded_loadedSet.
    apply bool_decide_ext. case_decide as Hk; [|done]. subst k'.
    assert (url' ≠ url) by congruence.
    rewrite elem_of_union, elem_of_singleton. split; [by intros [?|?]|by right].
Qed.

(** ** Tag descriptors of the wrong kind *)






(** ** The first load of a URL *)





Definition aCss : TagJson :=
  mkTag "link" {["href" := AStr "/a.css"; "rel" := AStr "stylesheet"]} "".


(** ** Waiting for scripts *)

(** X5: waiting for URLs that are all loaded already contributes one resolved
    promise per URL, creates no waiter, and changes nothing; the combined
    promise is fulfilled at once.  This covers the empty list. *)
Theorem waitForScriptsToLoad_all_loaded (k : ScriptType) (urls : list string) (w : World) :
  (∀ u, u ∈ urls → u ∈ loadedSet k (mgr w)) →
  waitForScriptsToLoad (kindName k) urls w = Normal w ((λ _, PResolved) <$> urls) ∧
  allFulfilled ((λ _, PResolved) <$> urls) (env w) = true.
Proof.
  intros Hall. split.
  - induction urls as [|u rest IH]; [done|]. simpl. unfold bind at 1, waitForOne, bind at 1.
    rewrite isScriptLoaded_kind, bool_decide_true by (apply Hall; by left).
    unfold ret at 1. unfold bind. rewrite IH; [done|].
    intros u' Hu'. apply Hall. by right.
  - unfold allFulfilled. apply forallb_forall. intros p Hp.
    apply in_map_iff in Hp as (u & <- & _). done.
Qed.

Lemma waitForScriptsToLoad_all_loaded_witness :
  waitForScriptsToLoad (kindName js) ["/a.js"; "/a.js"]
    (step (createComponentsManager [] []) (MarkScriptLoaded "js" "/a.js"))
    = Normal (step (createComponentsManager [] []) (MarkScriptLoaded "js" "/a.js"))
             ((λ _, PResolved) <$> ["/a.js"; "/a.js"]) ∧
  allFulfilled ((λ _, PResolved) <$> ["/a.js"; "/a.js"])
    (env (step (createComponentsManager [] []) (MarkScriptLoaded "js" "/a.js"))) = true.
Proof.
  apply (waitForScriptsToLoad_all_loaded js ["/a.js"; "/a.js"]
           (step (createComponentsManager [] []) (MarkScriptLoaded "js" "/a.js"))).
  intros u Hu. vm_compute.
  apply elem_of_cons in Hu as [->|Hu]; [reflexivity|].
  apply elem_of_cons in Hu as [->|Hu]; [reflexivity|].
  by apply elem_of_nil in Hu.
Defined.

(** X6: the kind is checked once per URL, inside the loop.  With a kind that
    is neither ["js"] nor ["css"], waiting for a non-empty list is rejected
    with the error of [isScriptLoaded] before any waiter is made, while
    waiting for the empty list goes through and yields no promise at all. *)
Theorem waitForScriptsToLoad_badKind (type : string) (urls : list string) (w : World) :
  type ≠ "js" ∧ type ≠ "css" →
  waitForScriptsToLoad type urls w =
    match urls with
    | [] => Normal w []
    | _ :: _ => Thrown w (badKind "isScriptLoaded" type)
    end.
Proof.
  intros Hbad. destruct urls as [|u rest]; [done|]. simpl.
  unfold bind at 1, waitForOne, bind at 1. by rewrite isScriptLoaded_bad.
Qed.

Lemma waitForScriptsToLoad_badKind_witness :
  waitForScriptsToLoad "image" ["/a.png"] (createComponentsManager [] []) =
    Thrown (createComponentsManager [] []) (badKind "isScriptLoaded" "image").
Proof.
  apply (waitForScriptsToLoad_badKind "image" ["/a.png"] (createComponentsManager [] [])).
  split; intros H; discriminate H.
Defined.

(** X7: a wait for one URL that is not loaded and has no waiter gets a pending
    latch, stored under [type:url]; [markScriptLoaded] for that kind and URL
    then fulfils this latch, and any later wait for the URL is resolved at
    once without a latch. *)
Theorem waiter_resolved_by_mark (k : ScriptType) (url : string) (w : World) :
  url ∉ loadedSet k (mgr w) →
  pendingScripts (mgr w) !! url = None →
  ∃ w1 p w2,
    waitForScriptsToLoad (kindName k) [url] w = Normal w1 [PRef p] ∧
    allFulfilled [PRef p] (env w1) = false ∧
    pendingScripts (mgr w1) !! (kindName k +:+ ":" +:+ url) = Some p ∧
    markScriptLoaded (kindName k) url w1 = Normal w2 tt ∧
    allFulfilled [PRef p] (env w2) = true ∧
    waitForScriptsToLoad (kindName k) [url] w2 = Normal w2 [PResolved].
Proof.
  intros Hnot Hnone. simpl. unfold bind at 1.
  rewrite waitForOne_new_latch; [|apply kindName_valid|by destruct k|done].
  unfold bind, ret. simpl. eexists _, (nextPromise (env w)), _.
  split; [reflexivity|].
  split; [unfold allFulfilled, isFulfilled; simpl; by rewrite lookup_insert_eq|].
  split; [simpl; by rewrite lookup_insert_eq|].
  rewrite markScriptLoaded_kind. simpl. rewrite lookup_insert_eq. simpl.
  split; [reflexivity|]. split.
  - unfold allFulfilled, isFulfilled, settle. simpl. rewrite lookup_insert_eq. simpl.
    by rewrite lookup_insert_eq.
  - unfold waitForOne, bind. rewrite isScriptLoaded_kind.
    rewrite bool_decide_true; [done|]. destruct k; simpl;
      apply elem_of_union; left; by apply elem_of_singleton.
Qed.

Lemma waiter_resolved_by_mark_witness :
  ∃ w1 p w2,
    waitForScriptsToLoad (kindName js) ["/a.js"] (createComponentsManager [] [])
      = Normal w1 [PRef p] ∧
    allFulfilled [PRef p] (env w1) = false ∧
    pendingScripts (mgr w1) !! (kindName js +:+ ":" +:+ "/a.js") = Some p ∧
    markScriptLoaded (kindName js) "/a.js" w1 = Normal w2 tt ∧
    allFulfilled [PRef p] (env w2) = true ∧
    waitForScriptsToLoad (kindName js) ["/a.js"] w2 = Normal w2 [PResolved].
Proof.
  apply (waiter_resolved_by_mark js "/a.js" (createComponentsManager [] [])).
  - vm_compute. intros H. discriminate H.
  - reflexivity.
Defined.

(** ** A drain that finds its head blocked *)

(** X8: when no drain is running and the head of the queue is blocked (and
    its wait-promise has not failed), a call of [_processPendingCalls] leaves
    the manager and the host exactly as they were, whatever stands behind the
    head: nothing is executed, the queue keeps its order, the stall reporter
    stays armed. *)
Theorem blocked_head_changes_nothing (w : World) (call : PendingCall)
    (rest : list PendingCall) :
  isProcessingPendingCalls (mgr w) = false →
  pendingComponentCalls (mgr w) = call :: rest →
  _isCallBlocked call (mgr w) = true →
  failedStatus call (mgr w) = None →
  _processPendingCalls w = (w, DrainFinished).
Proof.
  intros Hguard Hq Hblocked Hfail. unfold _processPendingCalls. rewrite Hguard.
  unfold drainLoop. destruct w as [m h]. destruct m. simpl in *. subst.
  change (failedStatus call _) with
    (failedStatus call (mkManager loadedJs0 loadedCss0 components0 componentInputs0
       pendingScripts0 (call :: rest) false warningIntervalId0 promiseCompletionStatus0)).
  rewrite Hfail.
  change (_isCallBlocked call _) with
    (_isCallBlocked call (mkManager loadedJs0 loadedCss0 components0 componentInputs0
       pendingScripts0 (call :: rest) false warningIntervalId0 promiseCompletionStatus0)).
  by rewrite Hblocked.
Qed.

(** The queue of [failingWorld] once its drain is over and the class has lost
    nothing: a head for which no data factory was registered. *)
Definition blockedWorld : World :=
  run (createComponentsManager [] [])
    [ RegisterComponent "y" (constantly VUndefined);
      CallComponent "y" "1" (Some "h1") None 0;
      CallComponent "y" "2" None None 1 ].

Lemma blocked_head_changes_nothing_witness :
  _processPendingCalls blockedWorld = (blockedWorld, DrainFinished).
Proof.
  apply (blocked_head_changes_nothing blockedWorld
           (mkCall "y" "1" (Some "h1") 0 None (Some 0) (Some 0))
           [mkCall "y" "2" None 1 None (Some 1) (Some 1)]);
    vm_compute; reflexivity.
Defined.

(** ** The stall reporter's tick *)

(** X9: the callback of the stall reporter changes nothing but the console.
    It is silent when no queued call is blocked, and writes exactly one
    warning when some queued call is. *)
Theorem warningTick_only_reports (now : nat) (w : World) :
  let w' := warningTick now w in
  mgr w' = mgr w ∧
  env w' = set_console (λ _, console (env w')) (env w) ∧
  ((∀ call, call ∈ pendingComponentCalls (mgr w) → _isCallBlocked call (mgr w) = false) →
   w' = w) ∧
  ((∃ call, call ∈ pendingComponentCalls (mgr w) ∧ _isCallBlocked call (mgr w) = true) →
   ∃ msg, console (env w') = console (env w) ++ [LogWarn msg]).
Proof.
  unfold warningTick.
  destruct (List.filter _ _) as [|oldest more] eqn:Hf; simpl.
  - split_and!; try done.
    + clear Hf. destruct w as [m []]. unfold_updates. reflexivity.
    + intros (call & Hin & Hb). apply list_elem_of_In in Hin.
      assert (In call []) as []. rewrite <- Hf. apply filter_In. done.
  - split_and!; try done.
    + intros Hall. assert (In oldest (oldest :: more)) as Hin by by left.
      rewrite <- Hf in Hin. apply filter_In in Hin as [Hin Hb].
      apply list_elem_of_In in Hin. by rewrite (Hall _ Hin) in Hb.
    + intros _. eauto.
Qed.

(** ** Failing before the chain *)


(** ** What the chain yields *)



Section NoData.
Variables (cls cid : string) (w : World).
Variables (fn : ComponentFn) (fns : list ComponentFn).
Variables (el : Element) (elems : list Element).
Hypothesis Hfns : components (mgr w) !! cls = Some (fn :: fns).
Hypothesis Helems : querySelectorAll_djcId cid (env w) = el :: elems.

End NoData.




(** ** From the operations to the runs *)

(** The events that come from the host rather than from a caller of the
    manager. *)
Definition hostEvent (ev : Event) : Prop :=
  match ev with
  | PageNewPromise | PageSettles _ _ | PageAppends _ | RunJob _ | ResumeDrain
  | TimerTick _ _ => True
  | _ => False
  end.

(** A relation between worlds that holds across every operation of the
    manager and every event of the host holds across an envelope, which only
    calls those operations, and so across every run. *)
Section RunInduction.
Context (R : relation World) `{!PreOrder R}.
Hypothesis R_registerComponent :
  ∀ cls fn w, R w (world_of (registerComponent cls fn w)).
Hypothesis R_registerComponentData :
  ∀ cls hash f w, R w (world_of (registerComponentData cls hash f w)).
Hypothesis R_queueComponentCall :
  ∀ cls cid hash wait now w, R w (world_of (queueComponentCall cls cid hash wait now w)).
Hypothesis R_loadJs : ∀ data w, R w (world_of (loadJs data w)).
Hypothesis R_loadCss : ∀ data w, R w (world_of (loadCss data w)).
Hypothesis R_markScriptLoaded : ∀ type url w, R w (world_of (markScriptLoaded type url w)).
Hypothesis R_waitForScriptsToLoad :
  ∀ type urls w, R w (world_of (waitForScriptsToLoad type urls w)).
Hypothesis R_promiseAll : ∀ ps w, R w (world_of (promiseAll ps w)).
Hypothesis R_requestDrain : ∀ w, R w (world_of (requestDrain w)).
Hypothesis R_host : ∀ w ev, hostEvent ev → R w (step w ev).

Lemma loadComponentScripts_rel inputs now w :
  R w (world_of (_loadComponentScripts inputs now w)).
Proof.
  unfold _loadComponentScripts.
  apply (bind_rel R).
  { apply (forEach_rel R). intros [[c h] j] w1. apply R_registerComponentData. }
  intros _ w1. apply (bind_rel R); [by apply (forEach_rel R)|].
  intros _ w2. apply (bind_rel R); [by apply (forEach_rel R)|].
  intros _ w3. apply (bind_rel R); [by apply (mapOp_rel R)|].
  intros _ w4. apply (bind_rel R).
  { apply (mapOp_rel R). intros d w5. by apply (bind_rel R). }
  intros jsScripts w5. apply (bind_rel R); [intros w6; by apply async_rel|].
  intros jsScripts2 w6. apply (bind_rel R); [done|].
  intros scriptsLoadPromise w7. apply (bind_rel R); [|done].
  apply (forEach_rel R). intros [[c i] h] w8. by apply (bind_rel R).
Qed.

Lemma step_rel w ev : R w (step w ev).
Proof.
  destruct ev; try (by apply R_host); simpl; unfold run_op; try done.
  apply loadComponentScripts_rel.
Qed.

Lemma run_rel evs : ∀ w, R w (run w evs).
Proof.
  induction evs as [|ev evs IH]; intros w; [done|]. rewrite run_cons.
  etrans; [apply step_rel|apply IH].
Qed.
End RunInduction.

(** ** What the registry and the loader leave alone *)

Definition assetFrame (w w' : World) : Prop :=
  ∃ lj lc ps pr np jb dh db,
    w' = mkWorld
           (set_pendingScripts (λ _, ps)
              (set_loadedCss (λ _, lc) (set_loadedJs (λ _, lj) (mgr w))))
           (set_docBody (λ _, db)
              (set_docHead (λ _, dh)
                 (set_jobs (λ _, jb)
                    (set_nextPromise np (set_promises (λ _, pr) (env w)))))).

Ltac asset_refl := eexists _, _, _, _, _, _, _, _; unfold_updates; reflexivity.

#[global] Instance assetFrame_preorder : PreOrder assetFrame.
Proof.
  split.
  - intros [[] []]. asset_refl.
  - intros [[] []] w2 w3 (? & ? & ? & ? & ? & ? & ? & ? & ->)
      (? & ? & ? & ? & ? & ? & ? & ? & ->). asset_refl.
Qed.

Lemma settle_assetFrame p st w : assetFrame w (on_env (settle p st) w).
Proof.
  unfold on_env, settle. destruct w as [[] []]. simpl.
  destruct (promises0 !! p) as [[[] ? ?]|]; asset_refl.
Qed.

Lemma isScriptLoaded_assetFrame type url w :
  assetFrame w (world_of (isScriptLoaded type url w)).
Proof. unfold isScriptLoaded. by case_decide. Qed.

Lemma markScriptLoaded_assetFrame type url w :
  assetFrame w (world_of (markScriptLoaded type url w)).
Proof.
  unfold markScriptLoaded. case_decide; [done|].
  apply (bind_rel assetFrame).
  { intros [[] []]. simpl. case_decide; asset_refl. }
  intros _ w1. apply (bind_rel assetFrame); [done|]. intros [latch|] w2; [|done].
  apply settle_assetFrame.
Qed.

Lemma loadJs_assetFrame data w : assetFrame w (world_of (loadJs data w)).
Proof.
  unfold loadJs. apply (bind_rel assetFrame).
  { intros w1. by destruct (createScriptElement data). }
  intros scriptNode w1. destruct (urlString _) as [src|]; [|done].
  apply (bind_rel assetFrame); [apply isScriptLoaded_assetFrame|]. intros [] w2; [done|].
  apply (bind_rel assetFrame); [apply markScriptLoaded_assetFrame|]. intros _ [[] []].
  asset_refl.
Qed.

Lemma loadCss_assetFrame data w : assetFrame w (world_of (loadCss data w)).
Proof.
  unfold loadCss. apply (bind_rel assetFrame).
  { intros w1. by destruct (createLinkElement data). }
  intros linkNode w1. destruct (urlString _) as [href|]; [|done].
  apply (bind_rel assetFrame); [apply isScriptLoaded_assetFrame|]. intros [] w2; [done|].
  apply (bind_rel assetFrame); [intros [[] []]; asset_refl|]. intros _ w3.
  apply (bind_rel assetFrame); [apply markScriptLoaded_assetFrame|]. done.
Qed.

Lemma waitForOne_assetFrame type url w : assetFrame w (world_of (waitForOne type url w)).
Proof.
  unfold waitForOne.
  apply (bind_rel assetFrame); [apply isScriptLoaded_assetFrame|]. intros [] w1; [done|].
  apply (bind_rel assetFrame); [done|]. intros [latch|] [[] []]; [done|]. asset_refl.
Qed.

Lemma waitForScriptsToLoad_assetFrame type urls w :
  assetFrame w (world_of (waitForScriptsToLoad type urls w)).
Proof.
  revert w. induction urls as [|url rest IH]; intros w; [done|]. simpl.
  apply (bind_rel assetFrame); [apply waitForOne_assetFrame|]. intros p w1.
  by apply (bind_rel assetFrame).
Qed.

Lemma promiseAll_assetFrame ps w : assetFrame w (world_of (promiseAll ps w)).
Proof.
  unfold promiseAll. destruct (allFulfilled ps (env w)); [done|].
  destruct w as [[] []]. asset_refl.
Qed.

(** ** What only ever grows *)

(** [w'] extends [w]: the loaded sets, the callback lists, the registered
    factories, the document and the two histories of activations of [w] are
    all still there in [w'], in the same order, possibly with more at the
    end. *)
Definition extends (w w' : World) : Prop :=
  loadedJs (mgr w) ⊆ loadedJs (mgr w') ∧
  loadedCss (mgr w) ⊆ loadedCss (mgr w') ∧
  (∀ cls fns, components (mgr w) !! cls = Some fns →
              ∃ more, components (mgr w') !! cls = Some (fns ++ more)) ∧
  (∀ key, is_Some (componentInputs (mgr w) !! key) →
          is_Some (componentInputs (mgr w') !! key)) ∧
  docHead (env w) `prefix_of` docHead (env w') ∧
  docBody (env w) `prefix_of` docBody (env w') ∧
  enqueueLog (env w) `prefix_of` enqueueLog (env w') ∧
  execLog (env w) `prefix_of` execLog (env w') ∧
  nextPromise (env w) ≤ nextPromise (env w').

#[global] Instance extends_preorder : PreOrder extends.
Proof.
  split.
  - intros w. unfold extends. split_and!; try done.
    intros cls fns ->. exists []. by rewrite app_nil_r.
  - intros w1 w2 w3 (A1 & A2 & A3 & A4 & A5 & A6 & A7 & A8 & A9)
      (B1 & B2 & B3 & B4 & B5 & B6 & B7 & B8 & B9).
    unfold extends. split_and!; try (by etrans); try lia; [|by auto].
    intros cls fns Hc. destruct (A3 _ _ Hc) as [m1 H1]. destruct (B3 _ _ H1) as [m2 H2].
    exists (m1 ++ m2). by rewrite app_assoc.
Qed.

(** Enough for [extends]: the registries and the document are the same, the
    history of executions has grown, and no promise was taken back. *)
Lemma extends_same w w' :
  loadedJs (mgr w') = loadedJs (mgr w) →
  loadedCss (mgr w') = loadedCss (mgr w) →
  components (mgr w') = components (mgr w) →
  componentInputs (mgr w') = componentInputs (mgr w) →
  docHead (env w') = docHead (env w) →
  docBody (env w') = docBody (env w) →
  enqueueLog (env w') = enqueueLog (env w) →
  execLog (env w) `prefix_of` execLog (env w') →
  nextPromise (env w) ≤ nextPromise (env w') →
  extends w w'.
Proof.
  unfold extends. intros -> -> -> -> -> -> -> ? ?. split_and!; try done.
  intros cls fns ->. exists []. by rewrite app_nil_r.
Qed.

Lemma addsAtMostOne_prefix url l l' doc doc' :
  addsAtMostOne url l l' doc doc' → doc `prefix_of` doc'.
Proof. intros [->|(u & el & -> & _)]; [done|by eexists]. Qed.

Lemma asset_extends w w' :
  assetFrame w w' → assetEffect w w' → fifoFrame w w' → extends w w'.
Proof.
  intros (lj & lc & ps & pr & np & jb & dh & db & Heq) (H1 & H2 & H3 & H4)
    (H5 & H6 & H7 & H8).
  unfold extends. split_and!; try done.
  - subst w'. simpl. intros cls fns ->. exists []. by rewrite app_nil_r.
  - by subst w'.
  - by eapply addsAtMostOne_prefix.
  - by eapply addsAtMostOne_prefix.
  - by rewrite H7.
  - by rewrite H5.
Qed.

Lemma assetStep_extends w ev : assetEvent ev → extends w (step w ev).
Proof.
  intros Hev. apply asset_extends; [| by apply assetEvent_effect |].
  - destruct ev; try done; simpl; unfold run_op.
    + apply loadJs_assetFrame.
    + apply loadCss_assetFrame.
    + apply markScriptLoaded_assetFrame.
    + apply waitForScriptsToLoad_assetFrame.
  - destruct ev; try done; simpl; unfold run_op.
    + apply loadJs_fifoFrame.
    + apply loadCss_fifoFrame.
    + apply markScriptLoaded_fifoFrame.
    + apply waitForScriptsToLoad_fifoFrame.
Qed.

Lemma promiseAll_extends ps w : extends w (world_of (promiseAll ps w)).
Proof.
  unfold promiseAll. destruct (allFulfilled ps (env w)); [done|].
  apply extends_same; simpl; try done. lia.
Qed.

Lemma leaveDrain_extends w : extends w (leaveDrain w).
Proof.
  unfold leaveDrain.
  destruct (pendingComponentCalls (mgr w)), (warningIntervalId (mgr w));
    by apply extends_same.
Qed.

Lemma drainLoop_extends w : extends w (drainLoop w).1.
Proof.
  unfold drainLoop.
  destruct (pendingComponentCalls (mgr w)) as [|call rest] eqn:Hq;
    [apply leaveDrain_extends|].
  destruct (failedStatus call (mgr w)); [by apply extends_same|].
  destruct (_isCallBlocked call (mgr w)); [apply leaveDrain_extends|]. simpl.
  destruct (execute_frame call (takeHead call rest w)) as (hp & inv & fc & ->).
  unfold takeHead. destruct (waitForPromise call);
    (apply extends_same; simpl; try done; by eexists).
Qed.

Lemma surface_extends w x : extends w x.1 → extends w (surface x).
Proof.
  by destruct x as [w' []].
Qed.

Lemma requestDrain_extends w : extends w (world_of (requestDrain w)).
Proof.
  apply surface_extends. unfold _processPendingCalls.
  destruct (isProcessingPendingCalls (mgr w)); [done|].
  etrans; [|apply drainLoop_extends]. by apply extends_same.
Qed.

Lemma settle_extends p st w : extends w (on_env (settle p st) w).
Proof.
  destruct (settle_assetFrame p st w) as (lj & lc & ps & pr & np & jb & dh & db & Heq).
  pose proof (settle_fifoFrame p st w) as (H5 & H6 & H7 & H8).
  destruct (settle_doc p st (env w)) as [Hh Hb].
  apply extends_same; try done; try (by rewrite Heq); by rewrite ?H5.
Qed.

Lemma resumeDrain_extends w : extends w (surface (resumeDrain w)).
Proof.
  apply surface_extends. unfold resumeDrain.
  destruct (suspended (env w)) as [[call r]|]; [|done].
  etrans; [|apply drainLoop_extends].
  unfold settleCall. destruct r; [destruct (resolve call)|destruct (reject call)];
    try (by apply extends_same).
  - etrans; [|apply settle_extends]. by apply extends_same.
  - etrans; [|apply settle_extends]. by apply extends_same.
Qed.

Lemma registerComponent_extends cls fn w :
  extends w (world_of (registerComponent cls fn w)).
Proof.
  unfold registerComponent. apply (bind_rel extends); [|intros _; apply requestDrain_extends].
  intros w1. unfold extends. simpl. split_and!; try done.
  intros c fns Hc. destruct (decide (c = cls)) as [->|Hne].
  - exists [fn]. rewrite Hc. rewrite lookup_alter_eq. by rewrite Hc.
  - exists []. rewrite app_nil_r, lookup_alter_ne by done.
    destruct (components (mgr w1) !! cls); [done|]. by rewrite lookup_insert_ne.
Qed.

Lemma registerComponentData_extends cls hash f w :
  extends w (world_of (registerComponentData cls hash f w)).
Proof.
  unfold registerComponentData.
  apply (bind_rel extends); [|intros _; apply requestDrain_extends].
  intros w1. unfold extends. simpl. split_and!; try done.
  - intros c fns ->. exists []. by rewrite app_nil_r.
  - intros key Hkey. destruct (decide (key = dataKey cls hash)) as [->|Hne].
    + by rewrite lookup_insert_eq.
    + by rewrite lookup_insert_ne.
Qed.

Lemma queueComponentCall_extends cls cid hash wait now w :
  extends w (world_of (queueComponentCall cls cid hash wait now w)).
Proof.
  unfold queueComponentCall. apply (bind_rel extends).
  { intros w1. destruct wait as [p|]; [|done].
    pose proof (attachLedger_fifoFrame (_getCallKey cls cid hash) p w1) as (? & ? & ? & ?).
    apply extends_same; try done; simpl; unfold attachLedger; destruct p as [|i]; try done;
      by destruct (promises (env w1) !! i) as [[[] ? ?]|]. }
  intros _ w1. unfold bind at 1. simpl. unfold bind at 1, modify at 1.
  match goal with |- extends _ (world_of (_ ?pushed)) => set (w2 := pushed) end.
  trans w2.
  { unfold extends. simpl. split_and!; try done; [|by eexists|lia].
    intros c fns ->. exists []. by rewrite app_nil_r. }
  clearbody w2. revert w2.
  apply (bind_rel extends); [done|]. intros queued w2.
  apply (bind_rel extends); [|done]. intros w3.
  destruct queued; [done|]. unfold modify. simpl.
  unfold _startWarningInterval. destruct (warningIntervalId (mgr w3)); [done|].
  by apply extends_same.
Qed.

Lemma hostEvent_extends w ev : hostEvent ev → extends w (step w ev).
Proof.
  destruct ev; try done; intros _; simpl.
  - apply extends_same; simpl; try done. lia.
  - destruct st; [done| |]; (destruct (promises (env w) !! p) as [[[] ? []]|]; try done;
      apply settle_extends).
  - unfold extends. simpl. split_and!; try done; [|by eexists].
    intros c fns ->. exists []. by rewrite app_nil_r.
  - destruct (jobs (env w) !! i) as [j|]; [|done]. unfold run_op, runLedgerJob.
    etrans; [|apply (bind_rel extends); [|intros _; apply requestDrain_extends]].
    + by apply extends_same.
    + intros w1. by apply extends_same.
  - apply resumeDrain_extends.
  - case_decide; [|done]. unfold warningTick.
    destruct (List.filter _ _); by apply extends_same.
Qed.

Lemma run_extends w evs : extends w (run w evs).
Proof.
  apply (run_rel extends).
  - apply registerComponent_extends.
  - apply registerComponentData_extends.
  - apply queueComponentCall_extends.
  - intros data w1. by apply (assetStep_extends w1 (LoadJs data)).
  - intros data w1. by apply (assetStep_extends w1 (LoadCss data)).
  - intros type url w1. by apply (assetStep_extends w1 (MarkScriptLoaded type url)).
  - intros type urls w1. by apply (assetStep_extends w1 (WaitForScriptsToLoad type urls)).
  - apply promiseAll_extends.
  - apply requestDrain_extends.
  - apply hostEvent_extends.
Qed.

(** X12: nothing ever leaves the loaded sets.  Once [isScriptLoaded] answers
    [true] for a kind and URL it answers [true] after every further run of
    the manager, whatever calls, envelopes and host events the run is made
    of. *)
Theorem loaded_stays_loaded (k : ScriptType) (url : string) (w : World) (evs : list Event) :
  isScriptLoaded (kindName k) url w = Normal w true →
  isScriptLoaded (kindName k) url (run w evs) = Normal (run w evs) true.
Proof.
  rewrite !isScriptLoaded_kind. intros [= Hin%bool_decide_eq_true].
  f_equal. apply bool_decide_eq_true.
  destruct (run_extends w evs) as (Hjs & Hcss & _).
  destruct k; simpl in *; [by apply Hjs|by apply Hcss].
Qed.

Definition markedWorld : World :=
  run (createComponentsManager [] []) [MarkScriptLoaded "css" "/a.css"].

Definition laterEvents : list Event :=
  [LoadJs aJs; CallComponent "table" "i1" None None 0;
   RegisterComponent "table" (constantly (VStr "done")); LoadCss aCss; ResumeDrain].

Lemma loaded_stays_loaded_witness :
  isScriptLoaded (kindName css) "/a.css" (run markedWorld laterEvents)
  = Normal (run markedWorld laterEvents) true.
Proof. apply (loaded_stays_loaded css "/a.css" markedWorld laterEvents). reflexivity. Defined.

(** X13: registrations are only ever added.  Over any run, the callbacks
    registered for a component class are still there, in the same order, in
    front of whatever was registered later; and a data factory registered
    under a key is never unregistered. *)
Theorem registrations_append_only (w : World) (evs : list Event) :
  (∀ cls fns, components (mgr w) !! cls = Some fns →
     ∃ more, components (mgr (run w evs)) !! cls = Some (fns ++ more)) ∧
  (∀ cls hash, is_Some (componentInputs (mgr w) !! dataKey cls hash) →
     is_Some (componentInputs (mgr (run w evs)) !! dataKey cls hash)).
Proof.
  destruct (run_extends w evs) as (_ & _ & Hc & Hd & _). split; [done|].
  intros cls hash. apply Hd.
Qed.

(** X14: the manager only appends to the document.  Over any run, the nodes
    of [<head>] and of [<body>] are still there in the same order, in front
    of whatever was appended. *)
Theorem document_append_only (w : World) (evs : list Event) :
  docHead (env w) `prefix_of` docHead (env (run w evs)) ∧
  docBody (env w) `prefix_of` docBody (env (run w evs)).
Proof. by destruct (run_extends w evs) as (_ & _ & _ & _ & Hh & Hb & _). Qed.

Lemma StronglySorted_lt_NoDup (l : list nat) : StronglySorted lt l → NoDup l.
Proof.
  induction 1 as [|x l Hs IH Hall]; constructor; [|done].
  intros Hin. eapply Forall_forall in Hall; [|exact Hin]. lia.
Qed.

(** X15: no activation is executed twice, and none that was executed is
    still waiting.  In every world the manager can reach, the executed
    activations followed by the waiting ones have pairwise distinct observing
    promises, and each of them was enqueued by [queueComponentCall]. *)
Theorem executed_at_most_once (w : World) :
  reachable w →
  NoDup (callId <$> (execLog (env w) ++ pendingComponentCalls (mgr w))) ∧
  NoDup (execLog (env w) ++ pendingComponentCalls (mgr w)) ∧
  ∀ call, call ∈ execLog (env w) ++ pendingComponentCalls (mgr w) →
          call ∈ enqueueLog (env w).
Proof.
  intros Hinv%reachable_fifoInv.
  pose proof (StronglySorted_lt_NoDup _ (fifoInv_sorted w Hinv)) as Hnd.
  split_and!; [done|by eapply NoDup_fmap_1|].
  destruct Hinv as (Hsub & _). intros call Hin. by eapply elem_of_sublist.
Qed.

Lemma executed_at_most_once_witness :
  NoDup (callId <$> (execLog (env (run markedWorld laterEvents))
                     ++ pendingComponentCalls (mgr (run markedWorld laterEvents)))) ∧
  NoDup (execLog (env (run markedWorld laterEvents))
         ++ pendingComponentCalls (mgr (run markedWorld laterEvents))) ∧
  ∀ call, call ∈ execLog (env (run markedWorld laterEvents))
                 ++ pendingComponentCalls (mgr (run markedWorld laterEvents)) →
          call ∈ enqueueLog (env (run markedWorld laterEvents)).
Proof.
  apply (executed_at_most_once (run markedWorld laterEvents)).
  exists [], [], ([MarkScriptLoaded "css" "/a.css"] ++ laterEvents). reflexivity.
Defined.

(** ** The guard and the stall reporter *)

(** What the guard and the timer are about. *)
Definition watchView (w : World)
    : bool * option (PendingCall * JsResult JsValue) * gset nat * option nat
      * list PendingCall :=
  (isProcessingPendingCalls (mgr w), suspended (env w), intervals (env w),
   warningIntervalId (mgr w), pendingComponentCalls (mgr w)).

(** The manager remembers the one interval it has set, and has one set
    whenever an activation waits. *)
Definition timerInv (w : World) : Prop :=
  intervals (env w) = match warningIntervalId (mgr w) with Some t => {[t]} | None => ∅ end ∧
  (pendingComponentCalls (mgr w) ≠ [] → is_Some (warningIntervalId (mgr w))).

(** The guard is set exactly while a drain is parked at its [await]. *)
Definition guardInv (w : World) : Prop :=
  isProcessingPendingCalls (mgr w) = true ↔ is_Some (suspended (env w)).

Definition watchInv (w : World) : Prop := guardInv w ∧ timerInv w.

Definition keepsWatch (w w' : World) : Prop := watchInv w → watchInv w'.

#[global] Instance keepsWatch_preorder : PreOrder keepsWatch.
Proof.
  split; [intros w H; exact H|]. intros w1 w2 w3 H12 H23 H. by apply H23, H12.
Qed.

Lemma watchView_keeps w w' : watchView w' = watchView w → keepsWatch w w'.
Proof.
  unfold watchView, keepsWatch, watchInv, guardInv, timerInv.
  intros [= -> -> -> -> ->]. done.
Qed.

Lemma assetFrame_keepsWatch w w' : assetFrame w w' → keepsWatch w w'.
Proof.
  intros (lj & lc & ps & pr & np & jb & dh & db & ->). by apply watchView_keeps.
Qed.

Lemma heapFrame_watchView w w' : heapFrame w w' → watchView w' = watchView w.
Proof. by intros (hp & inv & fc & ->). Qed.

Lemma settle_watchView p st w : watchView (on_env (settle p st) w) = watchView w.
Proof.
  destruct (settle_assetFrame p st w) as (lj & lc & ps & pr & np & jb & dh & db & ->).
  done.
Qed.

(** A drain that has set the guard and is not parked. *)
Definition drainPre (w : World) : Prop :=
  isProcessingPendingCalls (mgr w) = true ∧ suspended (env w) = None ∧ timerInv w.

Lemma leaveDrain_watch w : drainPre w → watchInv (leaveDrain w).
Proof.
  intros (Hg & Hs & Hi & Hw). unfold leaveDrain, watchInv, guardInv, timerInv.
  destruct (pendingComponentCalls (mgr w)) as [|c q] eqn:Hq;
    [destruct (warningIntervalId (mgr w)) as [t|] eqn:Ht|]; simpl;
    rewrite ?Hq, ?Ht, ?Hs, ?Hi; (split; [split; [done|by intros []]|]).
  - split; [|done]. apply difference_diag_L.
  - done.
  - split; [done|]. intros _. by apply Hw.
Qed.

Lemma drainLoop_watch w : drainPre w → watchInv (drainLoop w).1.
Proof.
  intros Hpre. pose proof Hpre as (Hg & Hs & Hi & Hw). unfold drainLoop.
  destruct (pendingComponentCalls (mgr w)) as [|call rest] eqn:Hq;
    [by apply leaveDrain_watch|].
  destruct (failedStatus call (mgr w)).
  { unfold watchInv, guardInv, timerInv. simpl. rewrite Hs.
    split; [split; [done|by intros []]|]. done. }
  destruct (_isCallBlocked call (mgr w)); [by apply leaveDrain_watch|]. simpl.
  pose proof (heapFrame_watchView _ _ (execute_frame call (takeHead call rest w))) as Hv.
  unfold watchView in Hv. injection Hv as Hv1 Hv2 Hv3 Hv4 Hv5.
  unfold watchInv, guardInv, timerInv. simpl. rewrite Hv1, Hv3, Hv4, Hv5.
  unfold takeHead. destruct (waitForPromise call); simpl; rewrite Hg;
    (split; [split; [by eexists|done]|]); (split; [done|]); intros _; by apply Hw.
Qed.

Lemma surface_watchView x : watchView (surface x) = watchView x.1.
Proof. by destruct x as [w []]. Qed.

Lemma watchView_inv w w' : watchView w' = watchView w → watchInv w → watchInv w'.
Proof. intros Hv. by apply watchView_keeps. Qed.

Lemma requestDrain_keepsWatch w : keepsWatch w (world_of (requestDrain w)).
Proof.
  intros Hinv. unfold requestDrain, modify. simpl.
  apply (watchView_inv _ _ (surface_watchView _)).
  unfold _processPendingCalls.
  destruct (isProcessingPendingCalls (mgr w)) eqn:Hg; [done|].
  apply drainLoop_watch. destruct Hinv as (Hguard & Htimer).
  split_and!; [done| |done]. simpl.
  destruct (suspended (env w)) eqn:Hs; [|done].
  unfold guardInv in Hguard. rewrite Hg, Hs in Hguard.
  destruct Hguard as [_ H]. by specialize (H (mk_is_Some _ _ eq_refl)).
Qed.

Lemma resumeDrain_keepsWatch w : keepsWatch w (surface (resumeDrain w)).
Proof.
  intros Hinv. apply (watchView_inv _ _ (surface_watchView _)).
  unfold resumeDrain. destruct (suspended (env w)) as [[call r]|] eqn:Hs; [|done].
  apply drainLoop_watch. destruct Hinv as (Hguard & Hi & Hw).
  assert (isProcessingPendingCalls (mgr w) = true) as Hg.
  { apply Hguard. by rewrite Hs. }
  set (w0 := on_env (set_suspended None) w).
  assert (drainPre w0) as Hpre by done.
  assert (watchView (settleCall call r w0) = watchView w0) as Hv.
  { unfold settleCall. destruct r; [destruct (resolve call)|destruct (reject call)];
      try done; apply settle_watchView. }
  clearbody w0. unfold watchView in Hv. injection Hv as Hv1 Hv2 Hv3 Hv4 Hv5.
  unfold drainPre, timerInv in *. by rewrite Hv1, Hv2, Hv3, Hv4, Hv5.
Qed.

Lemma registerComponent_keepsWatch cls fn w :
  keepsWatch w (world_of (registerComponent cls fn w)).
Proof.
  unfold registerComponent.
  apply (bind_rel keepsWatch); [|intros _; apply requestDrain_keepsWatch].
  intros w1. by apply watchView_keeps.
Qed.

Lemma registerComponentData_keepsWatch cls hash f w :
  keepsWatch w (world_of (registerComponentData cls hash f w)).
Proof.
  unfold registerComponentData.
  apply (bind_rel keepsWatch); [|intros _; apply requestDrain_keepsWatch].
  intros w1. by apply watchView_keeps.
Qed.

Lemma runLedgerJob_keepsWatch j w : keepsWatch w (world_of (runLedgerJob j w)).
Proof.
  unfold runLedgerJob.
  apply (bind_rel keepsWatch); [|intros _; apply requestDrain_keepsWatch].
  intros w1. by apply watchView_keeps.
Qed.

Lemma attachLedger_watchView key p w :
  watchView (on_env (attachLedger key p) w) = watchView w.
Proof.
  unfold attachLedger, on_env. destruct p as [|i]; [done|].
  by destruct (promises (env w) !! i) as [[[] ? ?]|].
Qed.

Lemma queueComponentCall_keepsWatch cls cid hash wait now w :
  keepsWatch w (world_of (queueComponentCall cls cid hash wait now w)).
Proof.
  unfold queueComponentCall. apply (bind_rel keepsWatch).
  { intros w1. destruct wait as [p|]; [|done].
    apply watchView_keeps, attachLedger_watchView. }
  intros _ w1 (Hguard & Hi & Hw).
  unfold bind, modify, gets, ret. simpl.
  destruct (pendingComponentCalls (mgr w1) ++ _) as [|c q] eqn:Hq;
    [by destruct (pendingComponentCalls (mgr w1))|].
  simpl. unfold _startWarningInterval. simpl.
  unfold watchInv, guardInv, timerInv in *.
  destruct (warningIntervalId (mgr w1)) as [t|] eqn:Ht; simpl; rewrite ?Ht.
  - split; [done|]. split; [done|]. by intros _.
  - split; [done|]. split; [|by intros _]. rewrite Hi. apply (right_id_L ∅ (∪)).
Qed.

Lemma hostEvent_keepsWatch w ev : hostEvent ev → keepsWatch w (step w ev).
Proof.
  destruct ev; try done; intros _; simpl.
  - by apply watchView_keeps.
  - destruct st; [done| |]; (destruct (promises (env w) !! p) as [[[] ? []]|]; try done;
      apply watchView_keeps, settle_watchView).
  - by apply watchView_keeps.
  - destruct (jobs (env w) !! i) as [j|]; [|done]. unfold run_op.
    etrans; [|apply runLedgerJob_keepsWatch]. by apply watchView_keeps.
  - apply resumeDrain_keepsWatch.
  - case_decide; [|done]. unfold warningTick.
    destruct (List.filter _ _); by apply watchView_keeps.
Qed.

Lemma run_keepsWatch w evs : keepsWatch w (run w evs).
Proof.
  apply (run_rel keepsWatch).
  - apply registerComponent_keepsWatch.
  - apply registerComponentData_keepsWatch.
  - apply queueComponentCall_keepsWatch.
  - intros data w1. apply assetFrame_keepsWatch, loadJs_assetFrame.
  - intros data w1. apply assetFrame_keepsWatch, loadCss_assetFrame.
  - intros type url w1. apply assetFrame_keepsWatch, markScriptLoaded_assetFrame.
  - intros type urls w1. apply assetFrame_keepsWatch, waitForScriptsToLoad_assetFrame.
  - intros ps w1. apply assetFrame_keepsWatch, promiseAll_assetFrame.
  - apply requestDrain_keepsWatch.
  - apply hostEvent_keepsWatch.
Qed.

Lemma reachable_watchInv w : reachable w → watchInv w.
Proof.
  intros (head & body & evs & ->). apply run_keepsWatch.
  unfold watchInv, guardInv, timerInv. simpl. split; [split; [done|by intros []]|done].
Qed.

(** X16: the guard against re-entrant drains is set exactly while a drain
    is parked at its [await]: every way out of the loop, the one that throws
    included, resets it, so no reachable world has the guard set with no
    drain left to resume. *)
Theorem guard_set_only_while_draining (w : World) :
  reachable w →
  (isProcessingPendingCalls (mgr w) = true ↔ is_Some (suspended (env w))).
Proof. by intros (Hguard & _)%reachable_watchInv. Qed.

Lemma guard_set_only_while_draining_witness :
  isProcessingPendingCalls (mgr (run markedWorld laterEvents)) = true ↔
  is_Some (suspended (env (run markedWorld laterEvents))).
Proof.
  apply (guard_set_only_while_draining (run markedWorld laterEvents)).
  exists [], [], ([MarkScriptLoaded "css" "/a.css"] ++ laterEvents). reflexivity.
Defined.

(** X17: the manager never has more than one interval running, it is the
    one whose handle it remembers, and whenever an activation waits in the
    queue the stall reporter is armed. *)
Theorem stall_reporter_armed_while_waiting (w : World) :
  reachable w →
  intervals (env w) = match warningIntervalId (mgr w) with Some t => {[t]} | None => ∅ end ∧
  (pendingComponentCalls (mgr w) ≠ [] → is_Some (warningIntervalId (mgr w))).
Proof. by intros (_ & Htimer)%reachable_watchInv. Qed.

Definition waitingWorld : World :=
  run (createComponentsManager [] tablePage) [CallComponent "table" "i1" None None 0].

Lemma stall_reporter_armed_while_waiting_witness :
  intervals (env waitingWorld)
  = match warningIntervalId (mgr waitingWorld) with Some t => {[t]} | None => ∅ end ∧
  (pendingComponentCalls (mgr waitingWorld) ≠ [] →
   is_Some (warningIntervalId (mgr waitingWorld))).
Proof.
  apply (stall_reporter_armed_while_waiting waitingWorld).
  exists [], tablePage, [CallComponent "table" "i1" None None 0]. reflexivity.
Defined.

(** ** Supplying what the head waits for *)

(** The world in which the drain runs the activation [head]: the guard is
    set and [head] has been shifted off the queue. *)
Definition entered (head : PendingCall) (rest : list PendingCall) (w : World) : World :=
  takeHead head rest (on_mgr (set_isProcessingPendingCalls true) w).

(** The head has entered execution: it is off the queue, in the history of
    executions, and the drain is parked on its outcome. *)
Definition started (head : PendingCall) (rest : list PendingCall) (w w' : World) : Prop :=
  execLog (env w') = execLog (env w) ++ [head] ∧
  pendingComponentCalls (mgr w') = rest ∧
  isProcessingPendingCalls (mgr w') = true ∧
  suspended (env w') = Some (head, (execute head (entered head rest w)).2).

Lemma requestDrain_starts_head w head rest :
  isProcessingPendingCalls (mgr w) = false →
  pendingComponentCalls (mgr w) = head :: rest →
  ready (mgr w) head →
  started head rest w (world_of (requestDrain w)).
Proof.
  intros Hg Hq Hr. unfold requestDrain, modify, _processPendingCalls. rewrite Hg. simpl.
  set (w0 := on_mgr (set_isProcessingPendingCalls true) w).
  assert (_isCallBlocked head (mgr w0) = false) as Hb by by apply isCallBlocked_false_ready.
  assert (failedStatus head (mgr w0) = None) as Hf by by apply ready_not_failed.
  unfold drainLoop. change (pendingComponentCalls (mgr w0)) with (pendingComponentCalls (mgr w)).
  rewrite Hq, Hf, Hb. change (takeHead head rest w0) with (entered head rest w). simpl.
  destruct (execute_frame head (entered head rest w)) as (hp & inv & fc & Heq).
  unfold started. rewrite Heq. simpl. split_and!; try done.
  all: unfold entered, takeHead; by destruct (waitForPromise head).
Qed.

(** X18: a drain that is asked for while no drain is under way, with a head
    that is ready, starts that head and nothing else: the head leaves the
    queue, joins the history of executions, and the drain is parked on the
    outcome of [callUnblockedComponent] for it, with the guard set; the
    activations behind it stay queued. *)
Theorem requested_drain_starts_ready_head (w : World) (head : PendingCall)
    (rest : list PendingCall) :
  isProcessingPendingCalls (mgr w) = false →
  pendingComponentCalls (mgr w) = head :: rest →
  ready (mgr w) head →
  let w' := world_of (requestDrain w) in
  execLog (env w') = execLog (env w) ++ [head] ∧
  pendingComponentCalls (mgr w') = rest ∧
  isProcessingPendingCalls (mgr w') = true ∧
  suspended (env w') =
    Some (head,
          match callUnblockedComponent (compClsId head) (compId head) (jsVarsHash head)
                  (entered head rest w) with
          | Normal _ result => Returned result
          | Thrown _ error => Failed error
          end).
Proof.
  intros Hg Hq Hr w'. destruct (requestDrain_starts_head w head rest Hg Hq Hr)
    as (H1 & H2 & H3 & H4).
  split_and!; try done. fold w' in H4. rewrite H4. unfold execute.
  by destruct (callUnblockedComponent _ _ _ _).
Qed.

(** Two activations are waiting and the class of the first has just got its
    callback, but no drain was asked for yet. *)
Definition twoWaiting : World :=
  let w := run (createComponentsManager [] tablePage)
               [CallComponent "table" "i1" None None 0;
                CallComponent "chart" "i2" None None 5] in
  on_mgr (set_components (insert "table" [constantly (VStr "done")])) w.

Lemma requested_drain_starts_ready_head_witness :
  let head := mkCall "table" "i1" None 0 None (Some 0) (Some 0) in
  let rest := [mkCall "chart" "i2" None 5 None (Some 1) (Some 1)] in
  let w' := world_of (requestDrain twoWaiting) in
  execLog (env w') = execLog (env twoWaiting) ++ [head] ∧
  pendingComponentCalls (mgr w') = rest ∧
  isProcessingPendingCalls (mgr w') = true ∧
  suspended (env w') =
    Some (head,
          match callUnblockedComponent (compClsId head) (compId head) (jsVarsHash head)
                  (entered head rest twoWaiting) with
          | Normal _ result => Returned result
          | Thrown _ error => Failed error
          end).
Proof.
  intros head rest.
  apply (requested_drain_starts_ready_head twoWaiting head rest).
  - reflexivity.
  - reflexivity.
  - split_and!.
    + exists (constantly (VStr "done")), []. reflexivity.
    + intros hash Hh. discriminate Hh.
    + intros [p Hp]. discriminate Hp.
Defined.




(** X20: when the head of the queue waits for nothing but the data factory
    of its class and hash, and no drain is under way, [registerComponentData]
    for that class and hash starts it at once. *)
Theorem registerComponentData_starts_head (cls hash : string) (f : DataFn) (w : World)
    (head : PendingCall) (rest : list PendingCall) :
  isProcessingPendingCalls (mgr w) = false →
  pendingComponentCalls (mgr w) = head :: rest →
  compClsId head = cls →
  jsVarsHash head = Some hash →
  callbacksRegistered (mgr w) head →
  waitSucceeded (mgr w) head →
  let w' := world_of (registerComponentData cls hash f w) in
  execLog (env w') = execLog (env w) ++ [head] ∧
  pendingComponentCalls (mgr w') = rest ∧
  isProcessingPendingCalls (mgr w') = true ∧
  ∃ r, suspended (env w') = Some (head, r).
Proof.
  intros Hg Hq Hcls Hh Hc Hw w'. unfold w', registerComponentData, bind, modify. simpl.
  set (w0 := on_mgr _ w).
  destruct (requestDrain_starts_head w0 head rest) as (H1 & H2 & H3 & H4); try done.
  - split_and!; [done| |done]. intros hash' Hh'. rewrite Hh in Hh'. injection Hh' as <-.
    simpl. rewrite Hcls. by rewrite lookup_insert_eq.
  - split_and!; try done. by eexists.
Qed.

(** An activation with a data-hash waits; its class has a callback. *)
Definition waitingForData : World :=
  run (createComponentsManager [] tablePage)
    [RegisterComponent "table" (constantly (VStr "done"));
     CallComponent "table" "i1" (Some "h1") None 0].

Lemma registerComponentData_starts_head_witness :
  let head := mkCall "table" "i1" (Some "h1") 0 None (Some 0) (Some 0) in
  let w' := world_of (registerComponentData "table" "h1" (jsonFactory (Returned ∅))
                        waitingForData) in
  execLog (env w') = execLog (env waitingForData) ++ [head] ∧
  pendingComponentCalls (mgr w') = [] ∧
  isProcessingPendingCalls (mgr w') = true ∧
  ∃ r, suspended (env w') = Some (head, r).
Proof.
  intros head.
  apply (registerComponentData_starts_head "table" "h1" (jsonFactory (Returned ∅))
           waitingForData head []).
  - reflexivity.
  - reflexivity.
  - reflexivity.
  - reflexivity.
  - exists (constantly (VStr "done")), []. reflexivity.
  - intros [p Hp]. discriminate Hp.
Defined.

(** X21: when the head of the queue waits for nothing but its wait-promise,
    and no drain is under way, the continuation that the manager attached to
    that promise, run after the promise was fulfilled, records the success in
    the ledger and starts the head at once. *)
Theorem wait_fulfilled_starts_head (w : World) (head : PendingCall)
    (rest : list PendingCall) :
  isProcessingPendingCalls (mgr w) = false →
  pendingComponentCalls (mgr w) = head :: rest →
  callbacksRegistered (mgr w) head →
  factoryRegistered (mgr w) head →
  let w' := world_of (runLedgerJob (mkJob (callKeyOf head) None) w) in
  execLog (env w') = execLog (env w) ++ [head] ∧
  pendingComponentCalls (mgr w') = rest ∧
  isProcessingPendingCalls (mgr w') = true ∧
  ∃ r, suspended (env w') = Some (head, r).
Proof.
  intros Hg Hq Hc Hf w'. unfold w', runLedgerJob, bind, modify. simpl.
  set (w0 := on_mgr _ w).
  destruct (requestDrain_starts_head w0 head rest) as (H1 & H2 & H3 & H4); try done.
  - split_and!; [done..|]. intros _. simpl. by rewrite lookup_insert_eq.
  - split_and!; try done. by eexists.
Qed.

(** An activation waits for a promise of the page; its class has a
    callback. *)
Definition waitingForPromise : World :=
  run (createComponentsManager [] tablePage)
    [RegisterComponent "table" (constantly (VStr "done")); PageNewPromise;
     CallComponent "table" "i1" None (Some (PRef 0)) 0].

Lemma wait_fulfilled_starts_head_witness :
  let head := mkCall "table" "i1" None 0 (Some (PRef 0)) (Some 1) (Some 1) in
  let w' := world_of (runLedgerJob (mkJob (callKeyOf head) None) waitingForPromise) in
  execLog (env w') = execLog (env waitingForPromise) ++ [head] ∧
  pendingComponentCalls (mgr w') = [] ∧
  isProcessingPendingCalls (mgr w') = true ∧
  ∃ r, suspended (env w') = Some (head, r).
Proof.
  intros head.
  apply (wait_fulfilled_starts_head waitingForPromise head []).
  - reflexivity.
  - reflexivity.
  - exists (constantly (VStr "done")), []. reflexivity.
  - intros hash Hh. discriminate Hh.
Defined.

(** ** When the awaited activation is over *)

(** What a stretch of the drain leaves alone. *)
Lemma drainLoop_promises w :
  promises (env (drainLoop w).1) = promises (env w) ∧
  jobs (env (drainLoop w).1) = jobs (env w).
Proof.
  unfold drainLoop.
  destruct (pendingComponentCalls (mgr w)) as [|call rest] eqn:Hq.
  { unfold leaveDrain. rewrite Hq. by destruct (warningIntervalId (mgr w)). }
  destruct (failedStatus call (mgr w)); [done|].
  destruct (_isCallBlocked call (mgr w)).
  { unfold leaveDrain. by rewrite Hq. }
  simpl. destruct (execute_frame call (takeHead call rest w)) as (hp & inv & fc & ->).
  unfold takeHead. by destruct (waitForPromise call).
Qed.

Lemma surface_promises x :
  promises (env (surface x)) = promises (env x.1) ∧ jobs (env (surface x)) = jobs (env x.1).
Proof. by destruct x as [w []]. Qed.

(** X22: the drain was parked on activation [call], whose chain has ended
    with the value [v].  When the drain resumes, the promise that
    [callComponent] handed out for [call] is fulfilled with [v]; no other
    promise changes, and the continuations that waited on that promise are
    scheduled with a success status. *)
Theorem resume_fulfils_observing_promise (w : World) (call : PendingCall) (v : JsValue)
    (p : nat) (cell : PromiseCell) :
  suspended (env w) = Some (call, Returned v) →
  resolve call = Some p →
  promises (env w) !! p = Some cell →
  pstate cell = Pending →
  let w' := step w ResumeDrain in
  pstate <$> promises (env w') !! p = Some (Fulfilled v) ∧
  (∀ q, q ≠ p → promises (env w') !! q = promises (env w) !! q) ∧
  jobs (env w') = jobs (env w) ++ ((λ k, mkJob k None) <$> reactions cell).
Proof.
  intros Hs Hres Hp Hpend w'. unfold w'. simpl.
  destruct (surface_promises (resumeDrain w)) as [-> ->].
  unfold resumeDrain. rewrite Hs.
  destruct (drainLoop_promises
              (settleCall call (Returned v) (on_env (set_suspended None) w))) as [-> ->].
  unfold settleCall. rewrite Hres. simpl.
  split_and!.
  - by eapply settle_pending.
  - intros q Hq. by rewrite settle_other.
  - unfold settle. simpl. rewrite Hp. destruct cell as [st rs ext]. simpl in *.
    by subst st.
Qed.

(** The drain is parked on the only activation there was. *)
Definition parkedWorld : World :=
  run waitingWorld [RegisterComponent "table" (constantly (VStr "done"))].

Lemma resume_fulfils_observing_promise_witness :
  let w' := step parkedWorld ResumeDrain in
  pstate <$> promises (env w') !! 0 = Some (Fulfilled (VStr "done")) ∧
  (∀ q, q ≠ 0 → promises (env w') !! q = promises (env parkedWorld) !! q) ∧
  jobs (env w') = jobs (env parkedWorld)
                  ++ ((λ k, mkJob k None) <$> reactions (mkCell Pending [] false)).
Proof.
  apply (resume_fulfils_observing_promise parkedWorld
           (mkCall "table" "i1" None 0 None (Some 0) (Some 0)) (VStr "done") 0
           (mkCell Pending [] false)); reflexivity.
Defined.

(** X23: when the drain resumes from the last activation, with nothing left
    in the queue, it leaves through the lines after the loop: the interval of
    the stall reporter is cleared and forgotten, the guard is reset, and
    nothing is parked. *)
Theorem last_activation_disarms_timer (w : World) (call : PendingCall)
    (r : JsResult JsValue) (t : nat) :
  suspended (env w) = Some (call, r) →
  pendingComponentCalls (mgr w) = [] →
  warningIntervalId (mgr w) = Some t →
  let w' := step w ResumeDrain in
  warningIntervalId (mgr w') = None ∧
  intervals (env w') = intervals (env w) ∖ {[t]} ∧
  isProcessingPendingCalls (mgr w') = false ∧
  suspended (env w') = None ∧
  execLog (env w') = execLog (env w).
Proof.
  intros Hs Hq Ht w'. unfold w'. simpl. unfold resumeDrain. rewrite Hs.
  set (w0 := on_env (set_suspended None) w).
  assert (watchView (settleCall call r w0) = watchView w0 ∧
          execLog (env (settleCall call r w0)) = execLog (env w0)) as [Hv He].
  { unfold settleCall. destruct r; [destruct (resolve call)|destruct (reject call)];
      try done; (split; [apply settle_watchView|apply settle_fifoFrame]). }
  unfold watchView in Hv. injection Hv as Hv1 Hv2 Hv3 Hv4 Hv5.
  unfold drainLoop. rewrite Hv5. simpl. rewrite Hq. simpl.
  unfold leaveDrain. rewrite Hv4, Hv5. simpl. rewrite Hq, Ht. simpl.
  by rewrite Hv3, He.
Qed.

Lemma last_activation_disarms_timer_witness :
  let w' := step parkedWorld ResumeDrain in
  warningIntervalId (mgr w') = None ∧
  intervals (env w') = intervals (env parkedWorld) ∖ {[0]} ∧
  isProcessingPendingCalls (mgr w') = false ∧
  suspended (env w') = None ∧
  execLog (env w') = execLog (env parkedWorld).
Proof.
  apply (last_activation_disarms_timer parkedWorld
           (mkCall "table" "i1" None 0 None (Some 0) (Some 0))
           (Returned (VStr "done")) 0); reflexivity.
Defined.

(** ** Envelopes *)

(** What the envelope's preparations leave alone: no waiter is made, nothing
    is enqueued, and the loaded scripts stay loaded. *)
Definition calm (w w' : World) : Prop :=
  pendingScripts (mgr w') = pendingScripts (mgr w) ∧
  enqueueLog (env w') = enqueueLog (env w) ∧
  loadedJs (mgr w) ⊆ loadedJs (mgr w').

#[global] Instance calm_preorder : PreOrder calm.
Proof.
  split; [by intros w|].
  intros w1 w2 w3 (A1 & A2 & A3) (B1 & B2 & B3).
  split_and!; [congruence..|by etrans].
Qed.




























(** ** Enqueueing *)

(** X26: [callComponent], with or without a wait-promise, always returns a
    fresh pending promise and puts exactly one activation, observed by that
    promise, at the tail of the queue.  It executes nothing and starts no
    drain, it does not write the ledger (only the continuation of the
    wait-promise does, later), and it leaves the stall reporter armed: a timer
    that is already running is kept, otherwise one is set. *)
Theorem queueComponentCall_enqueues_only (cls cid : string) (hash : option string)
    (wait : option Promise) (now : nat) (w : World) :
  let n := nextPromise (env w) in
  let call := mkCall cls cid hash now wait (Some n) (Some n) in
  ∃ w',
    queueComponentCall cls cid hash wait now w = Normal w' (PRef n) ∧
    pendingComponentCalls (mgr w') = pendingComponentCalls (mgr w) ++ [call] ∧
    promises (env w') !! n = Some (mkCell Pending [] false) ∧
    execLog (env w') = execLog (env w) ∧
    suspended (env w') = suspended (env w) ∧
    isProcessingPendingCalls (mgr w') = isProcessingPendingCalls (mgr w) ∧
    promiseCompletionStatus (mgr w') = promiseCompletionStatus (mgr w) ∧
    warningIntervalId (mgr w') =
      Some (default (nextInterval (env w)) (warningIntervalId (mgr w))) ∧
    (wait = None → jobs (env w') = jobs (env w)).
Proof.
  intros n call. unfold queueComponentCall, bind, ret, modify, gets.
  set (h1 := match wait with
             | Some p => attachLedger (_getCallKey cls cid hash) p (env w)
             | None => env w
             end).
  assert (nextPromise h1 = n ∧ execLog h1 = execLog (env w) ∧
          suspended h1 = suspended (env w) ∧ nextInterval h1 = nextInterval (env w) ∧
          (wait = None → jobs h1 = jobs (env w))) as (Hn & Hx & Hs & Hi & Hj).
  { unfold h1. destruct wait as [[|i]|]; try done. unfold attachLedger.
    by destruct (promises (env w) !! i) as [[[] ? ?]|]. }
  destruct wait as [p|]; simpl; fold h1; rewrite Hn; fold call;
    (destruct (pendingComponentCalls (mgr w) ++ [call]) eqn:Hq;
       [by destruct (pendingComponentCalls (mgr w))|]);
    rewrite <- Hq; unfold _startWarningInterval; simpl;
    (eexists; split; [reflexivity|]);
    destruct (warningIntervalId (mgr w)) eqn:Ht; simpl;
    rewrite ?Ht, ?Hx, ?Hs, ?Hi, ?Hn, ?lookup_insert_eq; split_and!; auto.
Qed.

(** ** The promise of an activation *)

(** A promise made by the manager that has not been settled. *)
Definition pendingInternal (h : Host) (p : nat) : Prop :=
  ∃ rs, promises h !! p = Some (mkCell Pending rs false).

(** What the promises of the activations depend on. *)
Definition promiseView (w : World)
    : gmap nat PromiseCell * nat * gmap string nat * list PendingCall * list PendingCall
      * option (PendingCall * JsResult JsValue) :=
  (promises (env w), nextPromise (env w), pendingScripts (mgr w), enqueueLog (env w),
   execLog (env w), suspended (env w)).

(** How a call that stays away from the queue may touch the promises: it
    makes new ones, and of the old ones it settles only latches of
    [waitForScriptsToLoad] and promises of the page. *)
Definition footprint (w w' : World) : Prop :=
  fifoFrame w w' ∧
  suspended (env w') = suspended (env w) ∧
  (∀ key l, pendingScripts (mgr w') !! key = Some l →
     pendingScripts (mgr w) !! key = Some l ∨
     nextPromise (env w) ≤ l < nextPromise (env w')) ∧
  (∀ p, p < nextPromise (env w) →
        (∀ key, pendingScripts (mgr w) !! key ≠ Some p) →
        pendingInternal (env w) p → pendingInternal (env w') p).

#[global] Instance footprint_preorder : PreOrder footprint.
Proof.
  split.
  - intros w. split_and!; [done|done|by left|done].
  - intros w1 w2 w3 (F1 & S1 & L1 & P1) (F2 & S2 & L2 & P2).
    pose proof F1 as (_ & _ & _ & N1). pose proof F2 as (_ & _ & _ & N2).
    split_and!.
    + by etrans.
    + congruence.
    + intros key l H3. destruct (L2 key l H3) as [H2|H2]; [|right; lia].
      destruct (L1 key l H2) as [H1|H1]; [by left|right; lia].
    + intros p Hp Hlatch Hpend. apply P2; [lia| |by apply P1].
      intros key Hkey. destruct (L1 key p Hkey) as [H1|H1]; [by eapply Hlatch|lia].
Qed.

Lemma footprint_view w w' : promiseView w' = promiseView w →
  pendingComponentCalls (mgr w') = pendingComponentCalls (mgr w) → footprint w w'.
Proof.
  unfold promiseView. intros [= Hp Hn Hl He Hx Hs] Hq.
  unfold footprint, fifoFrame, pendingInternal. rewrite Hp, Hn, Hl, He, Hx, Hs, Hq.
  split_and!; try done. by left.
Qed.

Lemma settle_latch_footprint key l st w :
  pendingScripts (mgr w) !! key = Some l → footprint w (on_env (settle l st) w).
Proof.
  intros Hkey. split_and!.
  - apply settle_fifoFrame.
  - apply settle_keeps.
  - intros key' l' H. by left.
  - intros p _ Hlatch (rs & Hp). exists rs. simpl. rewrite settle_other; [done|].
    intros ->. by eapply Hlatch.
Qed.

Lemma newPromise_footprint ext w :
  footprint w (mkWorld (mgr w) (newPromise ext (env w)).1).
Proof.
  split_and!.
  - unfold fifoFrame. simpl. split_and!; try done. lia.
  - done.
  - intros key l H. by left.
  - intros p Hp _ (rs & Hcell). exists rs. simpl. rewrite lookup_insert_ne by lia. done.
Qed.

Lemma markScriptLoaded_footprint type url w :
  footprint w (world_of (markScriptLoaded type url w)).
Proof.
  unfold markScriptLoaded. case_decide; [done|]. unfold bind at 1, modify at 1.
  set (w1 := on_mgr _ w).
  assert (footprint w w1) as Hw1 by (apply footprint_view; unfold w1; by case_decide).
  unfold bind, gets, modify.
  destruct (pendingScripts (mgr w1) !! (type +:+ ":" +:+ url)) as [latch|] eqn:Hl; [|done].
  etrans; [exact Hw1|]. by eapply settle_latch_footprint.
Qed.

Lemma isScriptLoaded_world type url w : world_of (isScriptLoaded type url w) = w.
Proof. unfold isScriptLoaded. by case_decide. Qed.

Lemma loadJs_footprint data w : footprint w (world_of (loadJs data w)).
Proof.
  unfold loadJs. apply (bind_rel footprint).
  { intros w1. by destruct (createScriptElement data). }
  intros scriptNode w1. destruct (urlString _) as [src|]; [|done].
  apply (bind_rel footprint); [intros w2; by rewrite isScriptLoaded_world|].
  intros [] w2; [done|].
  apply (bind_rel footprint); [apply markScriptLoaded_footprint|]. intros _ w3.
  etrans; [apply (newPromise_footprint true)|]. by apply footprint_view.
Qed.

Lemma loadCss_footprint data w : footprint w (world_of (loadCss data w)).
Proof.
  unfold loadCss. apply (bind_rel footprint).
  { intros w1. by destruct (createLinkElement data). }
  intros linkNode w1. destruct (urlString _) as [href|]; [|done].
  apply (bind_rel footprint); [intros w2; by rewrite isScriptLoaded_world|].
  intros [] w2; [done|].
  apply (bind_rel footprint); [intros w3; by apply footprint_view|]. intros _ w3.
  apply (bind_rel footprint); [apply markScriptLoaded_footprint|done].
Qed.

Lemma waitForOne_footprint type url w : footprint w (world_of (waitForOne type url w)).
Proof.
  unfold waitForOne. apply (bind_rel footprint); [intros w2; by rewrite isScriptLoaded_world|].
  intros [] w1; [done|]. unfold bind, gets.
  destruct (pendingScripts (mgr w1) !! url); [done|]. simpl.
  split_and!.
  - unfold fifoFrame. simpl. split_and!; try done. lia.
  - done.
  - simpl. intros key l H. destruct (decide (key = type +:+ ":" +:+ url)) as [->|Hne].
    + rewrite lookup_insert_eq in H. injection H as <-. right. lia.
    + rewrite lookup_insert_ne in H by done. by left.
  - intros p Hp _ (rs & Hcell). exists rs. simpl. rewrite lookup_insert_ne by lia. done.
Qed.

Lemma waitForScriptsToLoad_footprint type urls w :
  footprint w (world_of (waitForScriptsToLoad type urls w)).
Proof.
  revert w. induction urls as [|url rest IH]; intros w; [done|]. simpl.
  apply (bind_rel footprint); [apply waitForOne_footprint|]. intros p w1.
  by apply (bind_rel footprint).
Qed.

Lemma promiseAll_footprint ps w : footprint w (world_of (promiseAll ps w)).
Proof.
  unfold promiseAll. destruct (allFulfilled ps (env w)); [done|].
  apply (newPromise_footprint true).
Qed.

(** The promises of the activations and the latches are different promises;
    the promise of an activation that has not been executed, or on which the
    drain is parked, is pending; every enqueued activation resolves and
    rejects its own promise; and the drain is parked on an activation it has
    executed. *)
Record promiseInv (w : World) : Prop := mkPromiseInv {
  pi_latch : ∀ key l, pendingScripts (mgr w) !! key = Some l →
               l < nextPromise (env w) ∧ l ∉ callId <$> enqueueLog (env w);
  pi_pending : ∀ call, call ∈ enqueueLog (env w) →
               (call ∉ execLog (env w) ∨ ∃ r, suspended (env w) = Some (call, r)) →
               pendingInternal (env w) (callId call);
  pi_own : ∀ call, call ∈ enqueueLog (env w) →
               resolve call = Some (callId call) ∧ reject call = Some (callId call);
  pi_parked : ∀ call r, suspended (env w) = Some (call, r) → call ∈ execLog (env w);
}.

Definition allInv (w : World) : Prop := fifoInv w ∧ watchInv w ∧ promiseInv w.

Definition keepsAll (w w' : World) : Prop := allInv w → allInv w'.

#[global] Instance keepsAll_preorder : PreOrder keepsAll.
Proof.
  split; [intros w H; exact H|]. intros w1 w2 w3 H12 H23 H. by apply H23, H12.
Qed.

Lemma promiseView_inv w w' : promiseView w' = promiseView w → promiseInv w → promiseInv w'.
Proof.
  unfold promiseView. intros [= Hp Hn Hl He Hx Hs] [H1 H2 H3 H4].
  split; unfold pendingInternal in *; rewrite ?Hp, ?Hn, ?Hl, ?He, ?Hx, ?Hs; done.
Qed.

Lemma callId_bound w call :
  fifoInv w → call ∈ enqueueLog (env w) → callId call < nextPromise (env w).
Proof. intros (_ & _ & Hall) Hin. by eapply Forall_forall in Hall. Qed.

Lemma footprint_promiseInv w w' :
  footprint w w' → fifoInv w → promiseInv w → promiseInv w'.
Proof.
  intros ((Hx & Hq & He & Hn) & Hs & Hl & Hp) Hfifo [H1 H2 H3 H4].
  split; rewrite ?He, ?Hx, ?Hs; try done.
  - intros key l Hkey. destruct (Hl key l Hkey) as [Hold|Hnew].
    + destruct (H1 key l Hold). split; [lia|done].
    + split; [lia|]. intros (call & -> & Hin)%list_elem_of_fmap.
      pose proof (callId_bound w call Hfifo Hin). lia.
  - intros call Hin Hun. apply Hp; [by apply callId_bound| |by apply H2].
    intros key Hkey. destruct (H1 key _ Hkey) as [_ Hnot]. apply Hnot.
    apply list_elem_of_fmap. by exists call.
Qed.

Lemma footprint_keepsAll w w' : footprint w w' → keepsWatch w w' → keepsAll w w'.
Proof.
  intros Hf Hw (Hfifo & Hwatch & Hprom). split_and!.
  - destruct Hf as (Hff & _). by apply (fifoFrame_keeps _ _ Hff).
  - by apply Hw.
  - by eapply footprint_promiseInv.
Qed.

(** A step that touches neither the queue nor the promises. *)
Lemma views_keepsAll w w' :
  promiseView w' = promiseView w → watchView w' = watchView w → keepsAll w w'.
Proof.
  intros Hp Hw. apply footprint_keepsAll; [|by apply watchView_keeps].
  apply footprint_view; [done|]. unfold watchView in Hw. by injection Hw.
Qed.

(** What a stretch of the drain does to the promises: nothing; it may park
    on the head. *)
Lemma drainLoop_shape w :
  let w' := (drainLoop w).1 in
  promises (env w') = promises (env w) ∧ nextPromise (env w') = nextPromise (env w) ∧
  pendingScripts (mgr w') = pendingScripts (mgr w) ∧
  enqueueLog (env w') = enqueueLog (env w) ∧
  ((execLog (env w') = execLog (env w) ∧ suspended (env w') = suspended (env w)) ∨
   (∃ head rest r, pendingComponentCalls (mgr w) = head :: rest ∧
                   execLog (env w') = execLog (env w) ++ [head] ∧
                   suspended (env w') = Some (head, r))).
Proof.
  unfold drainLoop.
  destruct (pendingComponentCalls (mgr w)) as [|call rest] eqn:Hq.
  { unfold leaveDrain. rewrite Hq. destruct (warningIntervalId (mgr w)); simpl;
      split_and!; try done; by left. }
  destruct (failedStatus call (mgr w)); [simpl; split_and!; try done; by left|].
  destruct (_isCallBlocked call (mgr w)).
  { unfold leaveDrain. rewrite Hq. simpl. split_and!; try done; by left. }
  simpl. destruct (execute_frame call (takeHead call rest w)) as (hp & inv & fc & Heq).
  rewrite Heq. simpl. unfold takeHead. destruct (waitForPromise call); simpl;
    (split_and!; try done; right; by eexists call, rest, _).
Qed.

Lemma fifoInv_NoDup w : fifoInv w →
  NoDup (execLog (env w) ++ pendingComponentCalls (mgr w)) ∧
  NoDup (callId <$> enqueueLog (env w)).
Proof.
  intros Hinv. split.
  - eapply NoDup_fmap_1, StronglySorted_lt_NoDup, fifoInv_sorted, Hinv.
  - destruct Hinv as (_ & Hs & _). by apply StronglySorted_lt_NoDup.
Qed.

Lemma drainLoop_promiseInv w :
  fifoInv w → suspended (env w) = None → promiseInv w → promiseInv (drainLoop w).1.
Proof.
  intros Hfifo Hnone [H1 H2 H3 H4].
  destruct (drainLoop_shape w) as (Hp & Hn & Hl & He & Hcase).
  destruct Hcase as [[Hx Hs]|(head & rest & r & Hq & Hx & Hs)].
  - split; unfold pendingInternal in *; rewrite ?Hp, ?Hn, ?Hl, ?He, ?Hx, ?Hs; done.
  - destruct (fifoInv_NoDup w Hfifo) as [Hnd _]. rewrite Hq in Hnd.
    apply NoDup_app in Hnd as (_ & Hdisj & _).
    split; unfold pendingInternal in *; rewrite ?Hp, ?Hn, ?Hl, ?He, ?Hx, ?Hs; try done.
    + intros call Hin [Hnot|[r' [= -> _]]].
      * apply H2; [done|]. left. intros Hexec. apply Hnot, elem_of_app. by left.
      * apply H2; [done|]. left. intros Hexec. apply (Hdisj _ Hexec). by left.
    + intros call r' [= -> _]. apply elem_of_app. right. by left.
Qed.

Lemma requestDrain_promiseInv w :
  fifoInv w → watchInv w → promiseInv w → promiseInv (world_of (requestDrain w)).
Proof.
  intros Hfifo (Hguard & _) Hprom. unfold requestDrain, modify. simpl.
  apply (promiseView_inv (_processPendingCalls w).1); [by destruct (_processPendingCalls w) as [? []]|].
  unfold _processPendingCalls. destruct (isProcessingPendingCalls (mgr w)) eqn:Hg; [done|].
  apply drainLoop_promiseInv.
  - by apply (fifoFrame_keeps w).
  - simpl. destruct (suspended (env w)) eqn:Hs; [|done].
    unfold guardInv in Hguard. rewrite Hg, Hs in Hguard.
    destruct Hguard as [_ H]. by specialize (H (mk_is_Some _ _ eq_refl)).
  - by apply (promiseView_inv w).
Qed.

Lemma requestDrain_keepsAll w : keepsAll w (world_of (requestDrain w)).
Proof.
  intros (Hfifo & Hwatch & Hprom). split_and!.
  - by apply requestDrain_keeps.
  - by apply requestDrain_keepsWatch.
  - by apply requestDrain_promiseInv.
Qed.

Lemma NoDup_fmap_eq {A B} (f : A → B) (l : list A) x y :
  NoDup (f <$> l) → x ∈ l → y ∈ l → f x = f y → x = y.
Proof.
  intros Hnd [i Hi]%list_elem_of_lookup [j Hj]%list_elem_of_lookup Hf.
  assert (i = j) as ->; [|congruence].
  eapply NoDup_lookup; [exact Hnd| |]; rewrite list_lookup_fmap.
  - by rewrite Hi.
  - rewrite Hj. simpl. by rewrite Hf.
Qed.

Lemma settleCall_view c r w :
  suspended (env (settleCall c r w)) = suspended (env w) ∧
  pendingScripts (mgr (settleCall c r w)) = pendingScripts (mgr w) ∧
  nextPromise (env (settleCall c r w)) = nextPromise (env w).
Proof.
  unfold settleCall. destruct r; [destruct (resolve c)|destruct (reject c)]; try done; simpl;
    match goal with
    | |- context [settle ?p ?st ?h] =>
        destruct (settle_keeps p st h) as (_ & _ & _ & _ & Hn & Hs)
    end; by rewrite Hn, Hs.
Qed.

Lemma resumeDrain_promiseInv w :
  allInv w → promiseInv (surface (resumeDrain w)).
Proof.
  intros (Hfifo & (Hguard & _) & Hprom).
  apply (promiseView_inv (resumeDrain w).1); [by destruct (resumeDrain w) as [? []]|].
  unfold resumeDrain. destruct (suspended (env w)) as [[c r]|] eqn:Hs; [|done].
  set (w0 := on_env (set_suspended None) w).
  set (w1 := settleCall c r w0).
  assert (fifoFrame w w1) as Hframe.
  { trans w0; [done|apply settleCall_fifoFrame]. }
  assert (suspended (env w1) = None ∧ pendingScripts (mgr w1) = pendingScripts (mgr w) ∧
          nextPromise (env w1) = nextPromise (env w)) as (Hs1 & Hl1 & Hn1).
  { destruct (settleCall_view c r w0) as (E1 & E2 & E3). unfold w1.
    by rewrite E1, E2, E3. }
  pose proof Hframe as (Hx1 & _ & He1 & _).
  apply drainLoop_promiseInv; [by apply (fifoFrame_keeps w)|done|].
  destruct Hprom as [H1 H2 H3 H4].
  assert (c ∈ execLog (env w)) as Hc by by eapply H4.
  assert (c ∈ enqueueLog (env w)) as Hce.
  { destruct Hfifo as (Hsub & _). eapply elem_of_sublist; [|exact Hsub].
    apply elem_of_app. by left. }
  destruct (H3 c Hce) as [Hres Hrej].
  destruct (fifoInv_NoDup w Hfifo) as [_ Hnd].
  split; rewrite ?Hs1, ?Hl1, ?Hn1, ?He1, ?Hx1; try done.
  - intros call Hin [Hnot|[? [=]]].
    assert (callId call ≠ callId c) as Hne.
    { intros Heq. apply Hnot. by rewrite (NoDup_fmap_eq callId _ call c Hnd Hin Hce Heq). }
    destruct (H2 call Hin (or_introl Hnot)) as [rs Hcell]. exists rs.
    unfold w1, settleCall. rewrite Hres, Hrej.
    destruct r; simpl; by rewrite settle_other.
Qed.

Lemma resumeDrain_keepsAll w : keepsAll w (surface (resumeDrain w)).
Proof.
  intros Hall. pose proof Hall as (Hfifo & Hwatch & Hprom). split_and!.
  - by apply resumeDrain_keeps.
  - by apply resumeDrain_keepsWatch.
  - by apply resumeDrain_promiseInv.
Qed.

Lemma registerComponent_keepsAll cls fn w :
  keepsAll w (world_of (registerComponent cls fn w)).
Proof.
  unfold registerComponent.
  apply (bind_rel keepsAll); [|intros _; apply requestDrain_keepsAll].
  intros w1. by apply views_keepsAll.
Qed.

Lemma registerComponentData_keepsAll cls hash f w :
  keepsAll w (world_of (registerComponentData cls hash f w)).
Proof.
  unfold registerComponentData.
  apply (bind_rel keepsAll); [|intros _; apply requestDrain_keepsAll].
  intros w1. by apply views_keepsAll.
Qed.

Lemma runLedgerJob_keepsAll j w : keepsAll w (world_of (runLedgerJob j w)).
Proof.
  unfold runLedgerJob.
  apply (bind_rel keepsAll); [|intros _; apply requestDrain_keepsAll].
  intros w1. by apply views_keepsAll.
Qed.

Lemma attachLedger_pending key P h :
  nextPromise (attachLedger key P h) = nextPromise h ∧
  enqueueLog (attachLedger key P h) = enqueueLog h ∧
  execLog (attachLedger key P h) = execLog h ∧
  suspended (attachLedger key P h) = suspended h ∧
  ∀ p, pendingInternal h p → pendingInternal (attachLedger key P h) p.
Proof.
  unfold attachLedger. destruct P as [|i]; [done|].
  destruct (promises h !! i) as [[[] rs ext]|] eqn:Hi; try done.
  split_and!; try done. intros p (rs' & Hp). unfold pendingInternal. simpl.
  destruct (decide (p = i)) as [->|Hne].
  - rewrite lookup_insert_eq. rewrite Hi in Hp. injection Hp as <- <-. by eexists.
  - rewrite lookup_insert_ne by done. by exists rs'.
Qed.

(** What enqueueing does to the promises: the continuation is attached to
    the wait-promise, and the next fresh promise is made for the activation. *)
Lemma queueComponentCall_shape cls cid hash wait now w :
  let n := nextPromise (env w) in
  let call := mkCall cls cid hash now wait (Some n) (Some n) in
  let w' := world_of (queueComponentCall cls cid hash wait now w) in
  ∃ h1,
    (∀ p, pendingInternal (env w) p → pendingInternal h1 p) ∧
    promises (env w') = <[n := mkCell Pending [] false]> (promises h1) ∧
    nextPromise (env w') = S n ∧
    pendingScripts (mgr w') = pendingScripts (mgr w) ∧
    enqueueLog (env w') = enqueueLog (env w) ++ [call] ∧
    execLog (env w') = execLog (env w) ∧
    suspended (env w') = suspended (env w).
Proof.
  intros n call. unfold queueComponentCall, bind, ret, modify, gets.
  set (h1 := match wait with
             | Some p => attachLedger (_getCallKey cls cid hash) p (env w)
             | None => env w
             end).
  assert (nextPromise h1 = n ∧ enqueueLog h1 = enqueueLog (env w) ∧
          execLog h1 = execLog (env w) ∧ suspended h1 = suspended (env w) ∧
          ∀ p, pendingInternal (env w) p → pendingInternal h1 p) as (Hn & He & Hx & Hs & Hp).
  { unfold h1. destruct wait as [P|]; [|done]. apply attachLedger_pending. }
  exists h1. split; [done|].
  destruct wait as [P|]; simpl; fold h1; rewrite Hn; fold call;
    (destruct (pendingComponentCalls (mgr w) ++ [call]) eqn:Hq;
       [by destruct (pendingComponentCalls (mgr w))|]);
    try rewrite <- Hq; unfold _startWarningInterval; simpl;
    destruct (warningIntervalId (mgr w)) eqn:Ht; simpl;
    rewrite ?Hx, ?Hs, ?Hn, ?He; done.
Qed.

Lemma queueComponentCall_keepsAll cls cid hash wait now w :
  keepsAll w (world_of (queueComponentCall cls cid hash wait now w)).
Proof.
  intros (Hfifo & Hwatch & [H1 H2 H3 H4]). split_and!.
  - by apply queueComponentCall_keeps.
  - by apply queueComponentCall_keepsWatch.
  - destruct (queueComponentCall_shape cls cid hash wait now w)
      as (h1 & Hh1 & Hp & Hn & Hl & He & Hx & Hs).
    set (n := nextPromise (env w)) in *.
    set (call := mkCall cls cid hash now wait (Some n) (Some n)) in *.
    split; rewrite ?Hn, ?Hl, ?He, ?Hx, ?Hs; try done.
    + intros key l Hkey. destruct (H1 key l Hkey) as [Hlt Hnot]. fold n in Hlt.
      split; [lia|]. rewrite fmap_app. intros [Hin|Hin]%elem_of_app; [done|].
      apply list_elem_of_singleton in Hin. simpl in Hin. unfold callId in Hin. simpl in Hin.
      lia.
    + unfold pendingInternal. rewrite Hp.
      intros c [Hin|Hin]%elem_of_app Hun.
      * pose proof (callId_bound w c Hfifo Hin) as Hlt. fold n in Hlt.
        rewrite lookup_insert_ne by lia. by apply Hh1, H2.
      * apply list_elem_of_singleton in Hin as ->.
        unfold callId. simpl. rewrite lookup_insert_eq. by eexists.
    + intros c [Hin|Hin]%elem_of_app; [by apply H3|].
      by apply list_elem_of_singleton in Hin as ->.
Qed.

Lemma hostEvent_keepsAll w ev : hostEvent ev → keepsAll w (step w ev).
Proof.
  intros Hev. pose proof (hostEvent_keepsWatch w ev Hev) as Hwatch.
  destruct ev; try done; simpl in *.
  - apply footprint_keepsAll; [|done]. apply (newPromise_footprint true).
  - apply footprint_keepsAll; [|done].
    destruct st; [done| |];
      (destruct (promises (env w) !! p) as [[[] rs []]|] eqn:Hcell; try done;
       (split_and!; [apply settle_fifoFrame|apply settle_keeps|by left|]);
       intros q _ _ (rs' & Hq); exists rs'; simpl; rewrite settle_other; [done|];
       intros ->; rewrite Hcell in Hq; discriminate Hq).
  - by apply views_keepsAll.
  - destruct (jobs (env w) !! i) as [j|]; [|done]. unfold run_op.
    etrans; [|apply runLedgerJob_keepsAll]. by apply views_keepsAll.
  - apply resumeDrain_keepsAll.
  - case_decide; [|done]. unfold warningTick.
    destruct (List.filter _ _); by apply views_keepsAll.
Qed.

Lemma run_keepsAll w evs : keepsAll w (run w evs).
Proof.
  apply (run_rel keepsAll).
  - apply registerComponent_keepsAll.
  - apply registerComponentData_keepsAll.
  - apply queueComponentCall_keepsAll.
  - intros data w1. apply footprint_keepsAll; [apply loadJs_footprint|].
    apply assetFrame_keepsWatch, loadJs_assetFrame.
  - intros data w1. apply footprint_keepsAll; [apply loadCss_footprint|].
    apply assetFrame_keepsWatch, loadCss_assetFrame.
  - intros type url w1. apply footprint_keepsAll; [apply markScriptLoaded_footprint|].
    apply assetFrame_keepsWatch, markScriptLoaded_assetFrame.
  - intros type urls w1. apply footprint_keepsAll; [apply waitForScriptsToLoad_footprint|].
    apply assetFrame_keepsWatch, waitForScriptsToLoad_assetFrame.
  - intros ps w1. apply footprint_keepsAll; [apply promiseAll_footprint|].
    apply assetFrame_keepsWatch, promiseAll_assetFrame.
  - apply requestDrain_keepsAll.
  - apply hostEvent_keepsAll.
Qed.

Lemma reachable_allInv w : reachable w → allInv w.
Proof.
  intros Hr. pose proof (reachable_fifoInv w Hr) as Hfifo.
  pose proof (reachable_watchInv w Hr) as Hwatch.
  destruct Hr as (head & body & evs & ->). apply run_keepsAll.
  split_and!.
  - unfold fifoInv. simpl. split_and!; [done | constructor | constructor].
  - unfold watchInv, guardInv, timerInv. simpl. split; [split; [done|by intros []]|done].
  - split; simpl; try done.
    + intros call ?%elem_of_nil. done.
    + intros call ?%elem_of_nil. done.
Qed.

(** X27: the promise that [callComponent] returned for an activation is not
    settled before the activation has been executed.  In every world the
    manager can reach, every activation that was enqueued and has not entered
    execution still has its own promise pending, and so has the activation on
    which the drain is parked.  This holds for the activations that wait in
    the queue and, for good, for those that a flush has dropped: nothing but
    the drain ever settles such a promise, not the page and not
    [markScriptLoaded]. *)
Theorem unexecuted_promise_pending (w : World) (call : PendingCall) :
  reachable w →
  call ∈ enqueueLog (env w) →
  call ∉ execLog (env w) ∨ (∃ r, suspended (env w) = Some (call, r)) →
  resolve call = Some (callId call) ∧ reject call = Some (callId call) ∧
  ∃ rs, promises (env w) !! callId call = Some (mkCell Pending rs false).
Proof.
  intros (_ & _ & [H1 H2 H3 H4])%reachable_allInv Hin Hun.
  destruct (H3 call Hin) as [Hres Hrej]. split_and!; [done..|].
  by apply H2.
Qed.

(** The activation that the flush of [fifoRun] dropped. *)
Definition droppedCall : PendingCall := mkCall "z" "2" None 6 None (Some 2) (Some 2).

Lemma unexecuted_promise_pending_witness :
  resolve droppedCall = Some (callId droppedCall) ∧
  reject droppedCall = Some (callId droppedCall) ∧
  ∃ rs, promises (env (run (createComponentsManager [] []) fifoRun)) !! callId droppedCall
        = Some (mkCell Pending rs false).
Proof.
  apply (unexecuted_promise_pending (run (createComponentsManager [] []) fifoRun) droppedCall).
  - exists [], [], fifoRun. reflexivity.
  - apply list_elem_of_lookup. exists 1. vm_compute. reflexivity.
  - left. intros Hin. apply (list_elem_of_fmap_2 callId) in Hin. vm_compute in Hin.
    apply list_elem_of_singleton in Hin. discriminate Hin.
Defined.
